(** * Prologot: the binding between Godot values and SWI-Prolog terms

    A shallow embedding of [src/Prologot.cpp]: the value converter
    ([variant_to_term], [term_to_variant]), the query builder
    ([build_query]), the query operations ([query], [query_all],
    [query_one]), the knowledge-base mutators and the life cycle
    ([initialize], [cleanup]).

    The SWI-Prolog engine and the Godot runtime are foreign to the
    repository.  The engine's terms are modelled as an inductive type with
    one constructor per value of [PL_term_type]; the engine's parser and
    solver, and the conversions of the Godot runtime, are fields of a
    record [Foreign] over which the whole development is parametric.

    Text is a [string] on both sides.  On the Godot side a character is a
    code point, those below 256; on the engine side it is a byte of a C
    string.  The two crossings are [to_chars], the [utf8().get_data()] of
    the source, and [from_chars], its [String(const char* )]. *)

From Stdlib Require Import String Ascii List ZArith Bool Lia.
From Stdlib Require PrimFloat DecimalString.
Import ListNotations.
Local Open Scope string_scope.
Local Open Scope Z_scope.
Set Warnings "-register-all".

(** A [double]. *)
Definition float : Set := PrimFloat.float.

(** ** Godot side: [Variant], [Array], [Dictionary] *)

(** A [Dictionary] is kept as an association list in insertion order; keys
    are strings, as everywhere in this program. *)
Inductive Variant : Type :=
| VNil                                         (* Variant::NIL *)
| VBool (b : bool)                             (* Variant::BOOL *)
| VInt (i : Z)                                 (* Variant::INT, an int64_t *)
| VFloat (d : float)                           (* Variant::FLOAT, a double *)
| VString (s : string)                         (* Variant::STRING *)
| VArray (arr : list Variant)                  (* Variant::ARRAY *)
| VDict (dict : list (string * Variant))       (* Variant::DICTIONARY *)
| VOther (kind : nat).                         (* Vector2, Object, ... *)

Definition Array := list Variant.
Definition Dictionary := list (string * Variant).

(** [Dictionary::has]. *)
Fixpoint dict_has (d : Dictionary) (key : string) : bool :=
  match d with
  | [] => false
  | (k, _) :: rest => if String.eqb k key then true else dict_has rest key
  end.

(** [Dictionary::get(key, default)]. *)
Fixpoint dict_get (d : Dictionary) (key : string) (default : Variant) : Variant :=
  match d with
  | [] => default
  | (k, v) :: rest => if String.eqb k key then v else dict_get rest key default
  end.

(** [dict[key] = value]: overwrite in place, or append a new entry. *)
Fixpoint dict_set (d : Dictionary) (key : string) (value : Variant) : Dictionary :=
  match d with
  | [] => [(key, value)]
  | (k, v) :: rest =>
      if String.eqb k key then (k, value) :: rest
      else (k, v) :: dict_set rest key value
  end.

(** [Dictionary::keys]. *)
Definition dict_keys (d : Dictionary) : list string := map fst d.

(** The lookup in continuation form: [k] receives the value stored under
    [key].  It is [k (dict_get d key default)] whenever the key is present
    (lemma [dict_with_get]); the recursive converter below uses it so that
    its recursion stays structural. *)
Definition dict_with {A : Type} (key : string) (k : Variant -> A) (absent : A)
  : Dictionary -> A :=
  fix go (d : Dictionary) : A :=
    match d with
    | [] => absent
    | (k', v) :: rest => if String.eqb k' key then k v else go rest
    end.

(** The range of [int64_t]. *)
Definition INT64_MIN : Z := - 2 ^ 63.
Definition INT64_MAX : Z := 2 ^ 63 - 1.
Definition in_int64 (z : Z) : bool := (INT64_MIN <=? z) && (z <=? INT64_MAX).

(** ** Engine side: terms *)

(** One constructor per [PL_term_type] the converter distinguishes. *)
Inductive term : Type :=
| Var (id : nat)                               (* PL_VARIABLE *)
| Atom (name : string)                         (* PL_ATOM: a textual atom *)
| Int (i : Z)                                  (* PL_INTEGER, unbounded *)
| Float (d : float)                            (* PL_FLOAT *)
| Str (s : string)                             (* PL_STRING *)
| Nil                                          (* PL_NIL: the reserved [] *)
| Cons (head tail : term)                      (* PL_LIST_PAIR *)
| Compound (name : string) (args : list term)  (* PL_TERM *)
| Blob (kind : nat).                           (* PL_BLOB, PL_DICT, PL_RATIONAL *)

Inductive term_type : Type :=
| PL_VARIABLE | PL_ATOM | PL_INTEGER | PL_FLOAT | PL_STRING
| PL_NIL | PL_LIST_PAIR | PL_TERM | PL_OTHER.

Definition PL_term_type (t : term) : term_type :=
  match t with
  | Var _ => PL_VARIABLE
  | Atom _ => PL_ATOM
  | Int _ => PL_INTEGER
  | Float _ => PL_FLOAT
  | Str _ => PL_STRING
  | Nil => PL_NIL
  | Cons _ _ => PL_LIST_PAIR
  | Compound _ _ => PL_TERM
  | Blob _ => PL_OTHER
  end.

(** The read accessors of the foreign interface; [None] is the C [FALSE]. *)
Definition PL_get_atom_chars (t : term) : option string :=
  match t with Atom s => Some s | _ => None end.

Definition PL_get_int64 (t : term) : option Z :=
  match t with
  | Int i => if in_int64 i then Some i else None
  | _ => None
  end.

Definition PL_get_float (t : term) : option float :=
  match t with
  | Float d => Some d
  | _ => None
  end.

Definition PL_get_string_chars (t : term) : option string :=
  match t with Str s => Some s | _ => None end.

Definition PL_get_list (t : term) : option (term * term) :=
  match t with Cons h tl => Some (h, tl) | _ => None end.

Definition LIST_FUNCTOR : string := "[|]".

Definition PL_get_name_arity (t : term) : option (string * nat) :=
  match t with
  | Atom s => Some (s, 0%nat)
  | Compound n args => Some (n, length args)
  | Cons _ _ => Some (LIST_FUNCTOR, 2%nat)
  | _ => None
  end.

(** [PL_get_arg(i, t, a)], [i] counted from 1. *)
Definition PL_get_arg (i : nat) (t : term) : option term :=
  match i with
  | O => None
  | S j =>
      match t with
      | Compound _ args => nth_error args j
      | Cons h tl => nth_error [h; tl] j
      | _ => None
      end
  end.

(** ** Text across the foreign interface *)

(** A C string ends at its first NUL. *)
Fixpoint c_str (s : string) : string :=
  match s with
  | EmptyString => EmptyString
  | String c rest =>
      if Ascii.eqb c Ascii.zero then EmptyString else String c (c_str rest)
  end.

(** The UTF-8 encoding of one code point below 256: itself below 128, and
    the two bytes [110000xx 10xxxxxx] from 128 on. *)
Definition utf8_char (c : ascii) : string :=
  let n := nat_of_ascii c in
  if (n <? 128)%nat then String c EmptyString
  else String (ascii_of_nat (192 + n / 64))
         (String (ascii_of_nat (128 + n mod 64)) EmptyString).

(** [String::utf8]. *)
Fixpoint utf8 (s : string) : string :=
  match s with
  | EmptyString => EmptyString
  | String c rest => utf8_char c ++ utf8 rest
  end.

(** [s.utf8().get_data()], read by the engine as a C string. *)
Definition to_chars (s : string) : string := c_str (utf8 s).

(** [String(const char* )]: the bytes up to the first NUL, each one decoded
    as Latin-1, that is as the code point of its own value. *)
Definition from_chars (chars : string) : string := c_str chars.

(** Text of codes 1 to 127, which both crossings leave as it is (lemmas
    [to_chars_ascii] and [from_chars_ascii]). *)
Definition is_ascii_char (c : ascii) : bool :=
  ((0 <? nat_of_ascii c)%nat && (nat_of_ascii c <? 128)%nat)%bool.

Fixpoint ascii_text (s : string) : bool :=
  match s with
  | EmptyString => true
  | String c rest => (is_ascii_char c && ascii_text rest)%bool
  end.

(** ** The write side of the foreign interface

    Every [PL_put_*] and [PL_cons_*] call can fail when the engine cannot
    allocate.  Which terms the engine can build is the oracle [can_build];
    a failed call is [None], the C [FALSE]. *)
Section Converter.

Variable can_build : term -> bool.

(** Godot's [String(Variant)] for a value that is not a [String]. *)
Variable stringify : Variant -> string.

Definition put (t : term) : option term :=
  if can_build t then Some t else None.

Definition PL_put_atom_chars (s : string) : option term := put (Atom s).
Definition PL_put_int64 (i : Z) : option term := put (Int i).
Definition PL_put_float (d : float) : option term := put (Float d).
Definition PL_put_string_chars (s : string) : option term := put (Str s).
Definition PL_put_nil : option term := put Nil.
Definition PL_put_term (t : term) : option term := put t.
Definition PL_cons_list (h tl : term) : option term := put (Cons h tl).

(** The term of functor [name] over [args].  A functor of arity 0 is its
    atom, and the functor [[|]] of arity 2 is the list pair. *)
Definition cons_functor (name : string) (args : list term) : term :=
  match args with
  | [] => Atom name
  | [h; tl] => if String.eqb name LIST_FUNCTOR then Cons h tl
               else Compound name args
  | _ => Compound name args
  end.

(** [PL_cons_functor_v(t, PL_new_functor(PL_new_atom(name), arity), args)]. *)
Definition PL_cons_functor_v (name : string) (args : list term) : option term :=
  put (cons_functor name args).

(** The conversion operators of [Variant]: [String s = v] and
    [Array a = v]. *)
Definition as_String (v : Variant) : string :=
  match v with VString s => s | _ => stringify v end.

Definition as_Array (v : Variant) : Array :=
  match v with VArray a => a | _ => [] end.

Definition as_Dictionary (v : Variant) : Dictionary :=
  match v with VDict d => d | _ => [] end.

Notation "x <- a ;; b" :=
  (match a with Some x => b | None => None end)
    (at level 61, a at next level, right associativity).

(** The list loop of [variant_to_term]: [i] runs from [arr.size() - 1]
    down to 0, so the elements behind [x] are converted and consed before
    [x] itself. *)
Definition cons_backwards (convert : Variant -> option term)
  : Array -> option term :=
  fix backwards (a : Array) : option term :=
    match a with
    | [] => PL_put_nil
    | x :: rest =>
        list <- backwards rest ;;
        elem <- convert x ;;
        PL_cons_list elem list
    end.

(** The argument loop of [variant_to_term]: slot [args + i] receives the
    converted [args_arr[i]], [i] running upwards. *)
Definition put_slots (convert : Variant -> option term)
  : Array -> option (list term) :=
  fix forwards (a : Array) : option (list term) :=
    match a with
    | [] => Some []
    | x :: rest =>
        arg <- convert x ;;
        slot <- PL_put_term arg ;;
        slots <- forwards rest ;;
        Some (slot :: slots)
    end.

(** [Prologot::variant_to_term]; [None] is the invalid term [(term_t)0]. *)
Fixpoint variant_to_term (p_var : Variant) : option term :=
  match p_var with
  | VNil => PL_put_atom_chars "[]"
  | VBool b => PL_put_atom_chars (if b then "true" else "false")
  | VInt i => PL_put_int64 i
  | VFloat d => PL_put_float d
  | VString s => PL_put_atom_chars (to_chars s)
  | VArray arr =>
      match arr with
      | [] => PL_put_nil
      | _ :: _ =>
          list <- cons_backwards variant_to_term arr ;;
          PL_put_term list
      end
  | VDict dict =>
      if dict_has dict "functor" && dict_has dict "args" then
        let functor := as_String (dict_get dict "functor" VNil) in
        args <- dict_with "args"
                  (fun v =>
                     match v with
                     | VArray args_arr => put_slots variant_to_term args_arr
                     | _ => Some []
                     end)
                  (Some []) dict ;;
        PL_cons_functor_v (to_chars functor) args
      else PL_put_atom_chars "[]"
  | VOther _ => PL_put_atom_chars "[]"
  end.

End Converter.

(** [Prologot::term_to_variant].  The [switch] on [PL_term_type] is the
    match on the constructor, and each case reads the term through the
    accessor the source calls; [walk] is the loop
    [while (PL_get_list(tail, head, tail))].  In the case [PL_TERM] the
    source first tries [PL_get_list], which fails on a term that is not a
    list pair, and then reads name and arity; [PL_get_arg] cannot fail for
    an index up to the arity.  Lemma [term_to_variant_switch] states the
    function in the shape of the source. *)
Fixpoint term_to_variant (p_term : term) : Variant :=
  match p_term with
  | Var _ => VNil
  | Atom _ =>
      match PL_get_atom_chars p_term with
      | Some s => VString (from_chars s)
      | None => VNil
      end
  | Int _ =>
      match PL_get_int64 p_term with Some i => VInt i | None => VNil end
  | Float _ =>
      match PL_get_float p_term with Some d => VFloat d | None => VNil end
  | Str _ =>
      match PL_get_string_chars p_term with
      | Some s => VString (from_chars s)
      | None => VNil
      end
  | Nil => VArray []
  | Cons head tail => VArray (term_to_variant head :: walk tail)
  | Compound atom_name args =>
      if (Nat.eqb (length args) 0 && String.eqb (c_str atom_name) "[]")%bool
      then VArray []
      else VDict [("functor", VString (from_chars atom_name));
                  ("args", VArray (map term_to_variant args))]
  | Blob _ => VNil
  end
with walk (tail : term) : list Variant :=
  match tail with
  | Cons head tail => term_to_variant head :: walk tail
  | _ => []
  end.

(** The arguments [i], [i + 1], ..., [i + n - 1] of [t], read with
    [PL_get_arg]; [None] when one of the reads fails. *)
Fixpoint get_args (i n : nat) (t : term) : option (list term) :=
  match n with
  | O => Some []
  | S n' =>
      match PL_get_arg i t with
      | Some arg =>
          match get_args (S i) n' t with
          | Some rest => Some (arg :: rest)
          | None => None
          end
      | None => None
      end
  end.

(** ** Text helpers *)

Definition is_empty (s : string) : bool := (String.length s =? 0)%nat.

(** [s[0]]; indexing the empty string yields the terminating NUL. *)
Definition char_at0 (s : string) : ascii :=
  match s with
  | EmptyString => Ascii.zero
  | String c _ => c
  end.

Definition last_char (s : string) : option ascii :=
  String.get (String.length s - 1) s.

(** The lines
    [if (s.length() > 0 && s[s.length() - 1] == '.') s = s.substr(0, s.length() - 1);]
    that [build_query], [add_fact], [retract_fact] and [retract_all] each
    carry. *)
Definition remove_trailing_period (s : string) : string :=
  if ((0 <? String.length s)%nat &&
      match last_char s with Some c => Ascii.eqb c "." | None => false end)%bool
  then String.substring 0 (String.length s - 1) s
  else s.

Definition begins_with (s p : string) : bool := String.prefix p s.

(** Comparisons of characters, by code: ['A'] is 65, ['Z'] is 90. *)
Definition char_lt (c d : ascii) : bool := (nat_of_ascii c <? nat_of_ascii d)%nat.
Definition char_le (c d : ascii) : bool := (nat_of_ascii c <=? nat_of_ascii d)%nat.

(** [String::num_int64]. *)
Definition num_int64 (i : Z) : string :=
  DecimalString.NilZero.string_of_int (Z.to_int i).

(** ** The foreign interface

    What the engine answers when a query is stepped: the [int] that
    [PL_next_solution] returns, the argument vector of the query as the
    engine has instantiated it, and the term [PL_exception] hands out. *)
Record solution : Type := mkSolution {
  status : Z;
  bound : list term;
  pending : option term
}.

Definition PL_S_EXCEPTION : Z := -1.

(** An entry of the argument vector of [PL_initialise]: a string literal
    of the program, or the pointer that [utf8().get_data()] takes into a
    temporary [CharString] holding [text]; the temporary is destroyed at
    the end of the statement, before [PL_initialise] reads the vector. *)
Inductive argv_entry : Type :=
| Literal (text : string)
| Dangling (text : string).

(** The engine and the Godot runtime, as far as the binding calls them.
    - [Eng]: the state of the engine, its knowledge base included;
    - [can_build]: whether a [PL_put_*] or [PL_cons_*] call for the term
      succeeds;
    - [PL_put_term_invalid]: what [PL_put_term] stores when it is handed
      the invalid term [(term_t)0], [None] when it refuses; the interface
      does not say;
    - [PL_initialise argv e]: success, the pending exception if any, and
      the engine after the call;
    - [PL_chars_to_term e text]: the term parsed from the characters of
      [text], or [None];
    - [PL_next_solution e predicate args]: the first step of the query
      opened on [predicate] with the argument vector [args];
    - [PL_get_chars]: the text of an exception term, when it has one, as
      [String(const char* )] reads its characters;
    - [PL_predicate e name arity]: whether the handle returned for the
      characters of [name] is not null;
    - [stringify], [booleanize]: Godot's conversions of a [Variant] to
      [String] and to [bool];
    - [project_settings]: [ProjectSettings::globalize_path], when the
      singleton exists. *)
Record Foreign : Type := mkForeign {
  Eng : Type;
  can_build : term -> bool;
  PL_put_term_invalid : option term;
  PL_initialise : list argv_entry -> Eng -> bool * option term * Eng;
  PL_cleanup : Eng -> Eng;
  PL_chars_to_term : Eng -> string -> option term;
  PL_next_solution : Eng -> string -> list term -> solution * Eng;
  PL_get_chars : term -> option string;
  PL_predicate : Eng -> string -> Z -> bool;
  stringify : Variant -> string;
  booleanize : Variant -> bool;
  project_settings : option (string -> string)
}.

(** The calls made to the engine, in the order they are made. *)
Inductive Call : Type :=
| CSetenv (home : string)
| CInitialise (argv : list argv_entry)
| CCleanup
| CCharsToTerm (text : string)
| COpenQuery (predicate : string) (args : list term)
| CNextSolution
| CCloseQuery.

Section Binding.

Variable api : Foreign.

(** The members of [class Prologot], the engine behind it, the calls made
    to the engine so far and what [UtilityFunctions::push_error] printed. *)
Record World : Type := mkWorld {
  m_initialized : bool;
  m_last_error : string;
  m_on_error : string;
  m_on_warning : string;
  engine : Eng api;
  calls : list Call;
  console : list string
}.

Definition set_initialized (b : bool) (w : World) : World :=
  mkWorld b (m_last_error w) (m_on_error w) (m_on_warning w)
          (engine w) (calls w) (console w).

Definition set_last_error (msg : string) (w : World) : World :=
  mkWorld (m_initialized w) msg (m_on_error w) (m_on_warning w)
          (engine w) (calls w) (console w).

Definition set_on_error (e wa : string) (w : World) : World :=
  mkWorld (m_initialized w) (m_last_error w) e wa
          (engine w) (calls w) (console w).

Definition set_engine (e : Eng api) (w : World) : World :=
  mkWorld (m_initialized w) (m_last_error w) (m_on_error w) (m_on_warning w)
          e (calls w) (console w).

Definition log (c : Call) (w : World) : World :=
  mkWorld (m_initialized w) (m_last_error w) (m_on_error w) (m_on_warning w)
          (engine w) (calls w ++ [c]) (console w).

Definition print (line : string) (w : World) : World :=
  mkWorld (m_initialized w) (m_last_error w) (m_on_error w) (m_on_warning w)
          (engine w) (calls w) (console w ++ [line]).

(** The object as the constructor leaves it. *)
Definition Prologot (e : Eng api) : World :=
  mkWorld false EmptyString "print" "print" e [] [].

Definition to_term : Variant -> option term :=
  variant_to_term (can_build api) (stringify api).

Definition to_String : Variant -> string := as_String (stringify api).

Definition as_bool (v : Variant) : bool :=
  match v with VBool b => b | _ => booleanize api v end.

(** *** Engine calls *)

Definition chars_to_term (text : string) (w : World) : option term * World :=
  (PL_chars_to_term api (engine w) text, log (CCharsToTerm text) w).

(** [PL_open_query] followed by [PL_next_solution]. *)
Definition open_next (predicate : string) (args : list term) (w : World)
  : solution * World :=
  let w1 := log (COpenQuery predicate args) w in
  let '(sol, e) := PL_next_solution api (engine w1) predicate args in
  (sol, log CNextSolution (set_engine e w1)).

Definition PL_close_query (w : World) : World := log CCloseQuery w.

(** *** Errors *)

Definition push_error (p_message p_type : string) (w : World) : World :=
  let w := set_last_error p_message w in
  let option := if String.eqb p_type "warning" then m_on_warning w
                else m_on_error w in
  if String.eqb option "print" then print ("Prologot: " ++ p_message) w
  else if String.eqb option "halt" then print ("Prologot: " ++ p_message) w
  else w.

(** [exception] is what [PL_exception(p_qid)] returns. *)
Definition handle_prolog_exception (exception : option term)
           (p_context : string) (w : World) : bool * World :=
  match exception with
  | Some ex =>
      match PL_get_chars api ex with
      | Some exception_str =>
          let error_msg := p_context ++ " error: " ++ exception_str in
          (true, push_error error_msg "error" w)
      | None => (false, w)
      end
  | None => (false, w)
  end.

(** *** Query execution *)

Fixpoint build_args (i : nat) (p_args : Array) (query : string) : string :=
  match p_args with
  | [] => query
  | arg :: rest =>
      let query := if (0 <? i)%nat then query ++ ", " else query in
      let query :=
        match arg with
        | VString var_name =>
            if ((0 <? String.length var_name)%nat
                  && (char_le "A" (char_at0 var_name)
                      && char_le (char_at0 var_name) "Z")
                || Ascii.eqb (char_at0 var_name) "_")%bool
            then query ++ var_name
            else query ++ var_name
        | _ => query ++ stringify api arg
        end in
      build_args (S i) rest query
  end.

Definition build_query (p_predicate : string) (p_args : Array) : string :=
  let predicate := remove_trailing_period p_predicate in
  match p_args with
  | [] => predicate
  | _ :: _ => build_args 0 p_args (predicate ++ "(") ++ ")"
  end.

Definition query (p_predicate : string) (p_args : Array) (w : World)
  : bool * World :=
  if negb (m_initialized w) then (false, w) else
  let goal := build_query p_predicate p_args in
  if is_empty goal then (false, set_last_error "Empty query" w) else
  match chars_to_term goal w with
  | (None, w) => (false, set_last_error ("Failed to parse query: " ++ goal) w)
  | (Some t, w) =>
      let '(sol, w) := open_next "call" [t] w in
      if status sol =? PL_S_EXCEPTION then
        let '(_, w) := handle_prolog_exception (pending sol) "Query" w in
        (false, PL_close_query w)
      else
        let w := PL_close_query w in
        (negb (status sol =? 0), w)
  end.

(** The loop of [extract_variables]: [i] runs while
    [i < p_variables.size() && i < arity]. *)
Fixpoint extract_loop (i arity : nat) (p_term : term) (p_variables : Array)
         (result : Dictionary) : Dictionary :=
  match p_variables with
  | [] => result
  | v :: rest =>
      if (i <? arity)%nat then
        let var_name := to_String v in
        let result :=
          match PL_get_arg (i + 1) p_term with
          | Some arg => dict_set result var_name (term_to_variant arg)
          | None => result
          end in
        extract_loop (S i) arity p_term rest result
      else result
  end.

Definition extract_variables (p_term : term) (p_variables : Array) : Dictionary :=
  match PL_get_name_arity p_term with
  | None => []
  | Some (_, arity) => extract_loop 0 arity p_term p_variables []
  end.

(** The loop that [query_all] and [query_one] run over [p_args] to decide
    [extract_vars]; both [break]s leave with [false]. *)
Fixpoint extract_vars_loop (p_args : Array) (extract_vars : bool) : bool :=
  match p_args with
  | [] => extract_vars
  | VString var_name :: rest =>
      if ((String.length var_name =? 0)%nat
          || ((char_lt (char_at0 var_name) "A"
               || char_lt "Z" (char_at0 var_name))
              && negb (Ascii.eqb (char_at0 var_name) "_")))%bool
      then false
      else extract_vars_loop rest extract_vars
  | _ :: _ => false
  end.

Definition extract_vars (p_args : Array) : bool :=
  extract_vars_loop p_args (negb (Nat.eqb (length p_args) 0)).

(** [while (PL_get_list(tail, head, tail)) results.push_back(f(head))]. *)
Fixpoint each_solution (f : term -> Variant) (tail : term) : Array :=
  match tail with
  | Cons head tail => f head :: each_solution f tail
  | _ => []
  end.

Definition query_all (p_predicate : string) (p_args : Array) (w : World)
  : Array * World :=
  if negb (m_initialized w) then ([], w) else
  let goal := build_query p_predicate p_args in
  if is_empty goal then ([], set_last_error "Empty query" w) else
  let extract := extract_vars p_args in
  let findall_goal :=
    "findall(" ++ goal ++ ", " ++ goal ++ ", PrologotResults__)" in
  match chars_to_term findall_goal w with
  | (None, w) => ([], set_last_error ("Failed to parse query: " ++ goal) w)
  | (Some t, w) =>
      let '(sol, w) := open_next "call" [t] w in
      if status sol =? PL_S_EXCEPTION then
        let '(_, w) := handle_prolog_exception (pending sol) "Query all" w in
        ([], PL_close_query w)
      else
        let results :=
          if negb (status sol =? 0) then
            match PL_get_arg 3 (nth 0 (bound sol) t) with
            | Some findall_term =>
                each_solution
                  (fun head =>
                     if extract then VDict (extract_variables head p_args)
                     else term_to_variant head)
                  findall_term
            | None => []
            end
          else [] in
        (results, PL_close_query w)
  end.

Definition query_one (p_predicate : string) (p_args : Array) (w : World)
  : Variant * World :=
  if negb (m_initialized w) then (VNil, w) else
  let goal := build_query p_predicate p_args in
  if is_empty goal then (VNil, set_last_error "Empty query" w) else
  let extract := extract_vars p_args in
  match chars_to_term goal w with
  | (None, w) => (VNil, set_last_error ("Failed to parse query: " ++ goal) w)
  | (Some t, w) =>
      let '(sol, w) := open_next "call" [t] w in
      if status sol =? PL_S_EXCEPTION then
        let '(_, w) := handle_prolog_exception (pending sol) "Query one" w in
        (VNil, PL_close_query w)
      else
        let var :=
          if negb (status sol =? 0) then
            let t := nth 0 (bound sol) t in
            if extract then VDict (extract_variables t p_args)
            else term_to_variant t
          else VNil in
        (var, PL_close_query w)
  end.

(** *** Dynamic assertions *)

(** [add_fact] and [retract_fact] differ in the predicate they call and in
    the context of the error message only; [mutate_fact] is their common
    text. *)
Definition mutate_fact (predicate context p_fact : string) (w : World)
  : bool * World :=
  if negb (m_initialized w) then (false, w) else
  if is_empty p_fact then (false, set_last_error "Empty fact" w) else
  let fact := remove_trailing_period p_fact in
  match chars_to_term fact w with
  | (None, w) => (false, set_last_error ("Failed to parse fact: " ++ fact) w)
  | (Some t, w) =>
      let '(sol, w) := open_next predicate [t] w in
      if status sol =? PL_S_EXCEPTION then
        let '(_, w) := handle_prolog_exception (pending sol) context w in
        (false, PL_close_query w)
      else
        let w := PL_close_query w in
        (negb (status sol =? 0), w)
  end.

Definition add_fact : string -> World -> bool * World :=
  mutate_fact "assert" "Assert fact".

Definition retract_fact : string -> World -> bool * World :=
  mutate_fact "retract" "Retract fact".

Definition retract_all (p_functor : string) (w : World) : bool * World :=
  if negb (m_initialized w) then (false, w) else
  let functor := remove_trailing_period p_functor in
  let goal := "retractall(" ++ functor ++ ")" in
  query goal [] w.

(** *** Predicate manipulation *)

(** [PL_put_term(t + i, arg)] for the [arg] that [variant_to_term]
    returned.  The loop does not test [arg]: after a conversion that
    failed, [PL_put_term] receives the invalid term. *)
Definition fill_slot (arg : option term) : option term :=
  match arg with
  | Some a => PL_put_term (can_build api) a
  | None => PL_put_term_invalid api
  end.

(** The loop that fills the argument slots [t + i]; it leaves with the
    index of the first slot that [PL_put_term] did not fill. *)
Fixpoint put_args (i : Z) (p_args : Array) : list term + Z :=
  match p_args with
  | [] => inl []
  | v :: rest =>
      let arg := to_term v in
      match fill_slot arg with
      | None => inr i
      | Some slot =>
          match put_args (i + 1) rest with
          | inl slots => inl (slot :: slots)
          | inr j => inr j
          end
      end
  end.

Definition call_predicate (p_predicate : string) (p_args : Array) (w : World)
  : bool * World :=
  if negb (m_initialized w) then (false, w) else
  if is_empty p_predicate
  then (false, set_last_error "Empty predicate name" w) else
  match put_args 0 p_args with
  | inr i =>
      (false, set_last_error ("Failed to convert argument " ++ num_int64 i) w)
  | inl t =>
      match PL_cons_functor_v (can_build api) (to_chars p_predicate) t with
      | None => (false, set_last_error "Failed to construct predicate term" w)
      | Some goal =>
          let '(sol, w) := open_next "call" [goal] w in
          if status sol =? PL_S_EXCEPTION then
            let '(_, w) :=
              handle_prolog_exception (pending sol) "Call predicate" w in
            (false, PL_close_query w)
          else
            let w := PL_close_query w in
            (negb (status sol =? 0), w)
      end
  end.

(** The slot [t + p_args.size()] is a fresh term reference, an unbound
    variable; after a solution the engine has bound it, and the model reads
    it as the last argument of the instantiated goal. *)
Definition call_function (p_predicate : string) (p_args : Array) (w : World)
  : Variant * World :=
  if negb (m_initialized w) then (VNil, w) else
  if is_empty p_predicate
  then (VNil, set_last_error "Empty predicate name" w) else
  match put_args 0 p_args with
  | inr i =>
      (VNil, set_last_error ("Failed to convert argument " ++ num_int64 i) w)
  | inl t =>
      match PL_cons_functor_v (can_build api) (to_chars p_predicate)
                              (t ++ [Var 0]) with
      | None => (VNil, set_last_error "Failed to construct predicate term" w)
      | Some goal =>
          let '(sol, w) := open_next "call" [goal] w in
          if status sol =? PL_S_EXCEPTION then
            let '(_, w) :=
              handle_prolog_exception (pending sol) "Call function" w in
            (VNil, PL_close_query w)
          else
            let var :=
              if negb (status sol =? 0) then
                match PL_get_arg (length p_args + 1) (nth 0 (bound sol) goal) with
                | Some result => term_to_variant result
                | None => VNil
                end
              else VNil in
            (var, PL_close_query w)
      end
  end.

(** *** Introspection *)

Definition predicate_exists (p_predicate : string) (p_arity : Z) (w : World)
  : bool * World :=
  if negb (m_initialized w) then (false, w) else
  (PL_predicate api (engine w) p_predicate p_arity, w).

Definition list_predicates (w : World) : Array * World :=
  if negb (m_initialized w) then ([], w) else
  let goal := "current_predicate(Name/Arity)" in
  query_all goal [] w.

Definition get_last_error (w : World) : string := m_last_error w.

Definition is_initialized (w : World) : bool := m_initialized w.

(** *** File and code consultation *)

Definition consult_file (p_filename : string) (w : World) : bool * World :=
  if negb (m_initialized w) then (false, w) else
  if is_empty p_filename then (false, set_last_error "Empty filename" w) else
  let filename :=
    if (begins_with p_filename "res://" || begins_with p_filename "user://")%bool
    then match project_settings api with
         | Some globalize_path => globalize_path p_filename
         | None => p_filename
         end
    else p_filename in
  match PL_put_atom_chars (can_build api) (to_chars filename) with
  | None =>
      (false, set_last_error "Failed to convert filename to Prolog atom" w)
  | Some args =>
      let '(sol, w) := open_next "consult" [args] w in
      if status sol =? PL_S_EXCEPTION then
        let '(_, w) := handle_prolog_exception (pending sol) "Consult" w in
        (false, PL_close_query w)
      else
        let w := PL_close_query w in
        (negb (status sol =? 0), w)
  end.

Definition consult_string (p_prolog_code : string) (w : World) : bool * World :=
  if negb (m_initialized w) then (false, w) else
  if is_empty p_prolog_code
  then (false, set_last_error "Empty Prolog code" w) else
  match PL_put_string_chars (can_build api) (to_chars p_prolog_code) with
  | None => (false, set_last_error "Failed to convert code to Prolog string" w)
  | Some t =>
      match PL_put_term (can_build api) t with
      | None => (false, set_last_error "Failed to prepare arguments" w)
      | Some args =>
          let '(sol, w) := open_next "load_program_from_string" [args] w in
          if status sol =? PL_S_EXCEPTION then
            let '(_, w) :=
              handle_prolog_exception (pending sol) "Consult string" w in
            (false, PL_close_query w)
          else
            let w := PL_close_query w in
            (negb (status sol =? 0), w)
      end
  end.

(** *** Initialisation and cleanup *)

Definition set_swi_home_dir (p_prolog_home : string) (w : World) : World :=
  if is_empty p_prolog_home then w else log (CSetenv p_prolog_home) w.

(** The clauses that [initialize] asserts for [consult_string]. *)
Definition predicates : list string :=
  [ "load_program_from_string(Code) :- open_string(Code, Stream), call_cleanup(prologot_load_clauses(Stream), close(Stream))";
    "prologot_load_clauses(Stream) :- read_term(Stream, Term, []), (Term == end_of_file -> true ; prologot_process_clause(Term), prologot_load_clauses(Stream))";
    "prologot_process_clause((:- Goal)) :- !, call(Goal)";
    "prologot_process_clause((?- Goal)) :- !, call(Goal)";
    "prologot_process_clause(Clause) :- assertz(Clause)" ].

Definition engine_cleanup (w : World) : World :=
  log CCleanup (set_engine (PL_cleanup api (engine w)) w).

(** The loop over [predicates]. *)
Fixpoint bootstrap (ps : list string) (w : World) : bool * World :=
  match ps with
  | [] => (true, w)
  | p :: rest =>
      match chars_to_term p w with
      | (None, w) =>
          let w :=
            set_last_error ("Failed to parse bootstrap predicate: " ++ p) w in
          (false, engine_cleanup w)
      | (Some clause, w) =>
          let '(sol, w) := open_next "assertz" [clause] w in
          if ((status sol =? PL_S_EXCEPTION) || (status sol =? 0))%bool then
            let msg :=
              match pending sol with
              | Some ex =>
                  match PL_get_chars api ex with
                  | Some msg => "Failed to assert bootstrap predicate: " ++ msg
                  | None => "Failed to assert bootstrap predicate: " ++ p
                  end
              | None => "Failed to assert bootstrap predicate: " ++ p
              end in
            let w := set_last_error msg w in
            let w := PL_close_query w in
            (false, engine_cleanup w)
          else bootstrap rest (PL_close_query w)
      end
  end.

(** [string_storage.push_back(text);
    argv_list.push_back(string_storage.back().utf8().get_data());] *)
Definition stored (text : string) : argv_entry := Dangling text.

Definition flag_option (name value : string) : list argv_entry :=
  if negb (is_empty value) then [stored (name ++ value)] else [].

Definition file_option (flag value : string) : list argv_entry :=
  if negb (is_empty value) then [Literal flag; stored value] else [].

(** [-D key=value] and [-p alias=path]: one pair per key of the
    dictionary stored under [option]. *)
Definition pair_options (flag option : string) (p_options : Dictionary)
  : list argv_entry :=
  if dict_has p_options option then
    let d := as_Dictionary (dict_get p_options option (VDict [])) in
    flat_map (fun key =>
                [Literal flag;
                 stored (key ++ "=" ++ to_String (dict_get d key VNil))])
             (dict_keys d)
  else [].

(** The argument vector handed to [PL_initialise], without the closing
    null pointer. *)
Definition build_argv (p_options : Dictionary) : list argv_entry :=
  let quiet := as_bool (dict_get p_options "quiet" (VBool true)) in
  let optimised := as_bool (dict_get p_options "optimised" (VBool false)) in
  let traditional := as_bool (dict_get p_options "traditional" (VBool false)) in
  let threads := as_bool (dict_get p_options "threads" (VBool true)) in
  let packs := as_bool (dict_get p_options "packs" (VBool true)) in
  let on_error := to_String (dict_get p_options "on error" (VString "print")) in
  let on_warning :=
    to_String (dict_get p_options "on warning" (VString "print")) in
  let stack_limit := to_String (dict_get p_options "stack limit" (VString EmptyString)) in
  let table_space := to_String (dict_get p_options "table space" (VString EmptyString)) in
  let shared_table_space :=
    to_String (dict_get p_options "shared table space" (VString EmptyString)) in
  let init_file := to_String (dict_get p_options "init file" (VString EmptyString)) in
  let script_file := to_String (dict_get p_options "script file" (VString EmptyString)) in
  let toplevel := to_String (dict_get p_options "toplevel" (VString EmptyString)) in
  let goal_var := dict_get p_options "goal" VNil in
  [Literal "godot"]
    ++ (if quiet then [Literal "--quiet"] else [])
    ++ (if optimised then [Literal "-O"] else [])
    ++ (if traditional then [Literal "--traditional"] else [])
    ++ (if negb threads then [Literal "--no-threads"] else [])
    ++ (if negb packs then [Literal "--no-packs"] else [])
    ++ (if (negb (is_empty on_error) && negb (String.eqb on_error "print"))%bool
        then [stored ("--on-error=" ++ on_error)] else [])
    ++ (if (negb (is_empty on_warning)
            && negb (String.eqb on_warning "print"))%bool
        then [stored ("--on-warning=" ++ on_warning)] else [])
    ++ flag_option "--stack-limit=" stack_limit
    ++ flag_option "--table-space=" table_space
    ++ flag_option "--shared-table-space=" shared_table_space
    ++ file_option "-f" init_file
    ++ file_option "-l" script_file
    ++ file_option "-t" toplevel
    ++ match goal_var with
       | VString goal => file_option "-g" goal
       | VArray goals =>
           flat_map (fun g => [Literal "-g"; stored (to_String g)]) goals
       | _ => []
       end
    ++ pair_options "-D" "prolog flags" p_options
    ++ pair_options "-p" "file search paths" p_options
    ++ (if dict_has p_options "custom args"
        then map (fun a => stored (to_String a))
                 (as_Array (dict_get p_options "custom args" (VArray [])))
        else []).

Definition initialize (p_options : Dictionary) (w : World) : bool * World :=
  if m_initialized w then (true, w) else
  let home := to_String (dict_get p_options "home" (VString EmptyString)) in
  let on_error := to_String (dict_get p_options "on error" (VString "print")) in
  let on_warning :=
    to_String (dict_get p_options "on warning" (VString "print")) in
  let w := set_on_error on_error on_warning w in
  let w := set_swi_home_dir home w in
  let argv_list := build_argv p_options in
  let '(ok, ex, e) := PL_initialise api argv_list (engine w) in
  let w := log (CInitialise argv_list) (set_engine e w) in
  if negb ok then
    let '(handled, w) := handle_prolog_exception ex "PL_initialise" w in
    if negb handled
    then (false,
          set_last_error "PL_initialise() failed (no details available)" w)
    else (false, w)
  else
    let '(ok, w) := bootstrap predicates w in
    if ok then (true, set_initialized true w) else (false, w).

Definition cleanup (w : World) : World :=
  if m_initialized w then set_initialized false (engine_cleanup w) else w.

End Binding.

Arguments m_initialized {api} w.
Arguments m_last_error {api} w.
Arguments m_on_error {api} w.
Arguments m_on_warning {api} w.
Arguments engine {api} w.
Arguments calls {api} w.
Arguments console {api} w.

(** ** A small engine

    An instance of [Foreign] to run the binding on: the knowledge base is a
    list of facts, the parser knows a handful of texts, and the solver
    implements [assert/1], [retract/1], [retractall/1], [findall/3] and the
    lookup of a fact. *)
Module Mini.

(** A pattern matches a fact when they agree wherever the pattern is not
    a variable. *)
Fixpoint matches (p f : term) : bool :=
  match p, f with
  | Var _, _ => true
  | Atom a, Atom b => String.eqb a b
  | Int a, Int b => Z.eqb a b
  | Float a, Float b => PrimFloat.eqb a b
  | Str a, Str b => String.eqb a b
  | Nil, Nil => true
  | Cons ph pt, Cons fh ft => matches ph fh && matches pt ft
  | Compound n ps, Compound m fs =>
      String.eqb n m
      && (fix all2 (ps fs : list term) : bool :=
            match ps, fs with
            | [], [] => true
            | p :: ps, f :: fs => matches p f && all2 ps fs
            | _, _ => false
            end) ps fs
  | _, _ => false
  end.

Fixpoint remove_first (p : term) (kb : list term) : list term :=
  match kb with
  | [] => []
  | f :: rest => if matches p f then rest else f :: remove_first p rest
  end.

Definition list_term (ts : list term) : term := fold_right Cons Nil ts.

Definition same_predicate (g f : term) : bool :=
  match PL_get_name_arity g, PL_get_name_arity f with
  | Some (n, a), Some (m, b) => String.eqb n m && Nat.eqb a b
  | _, _ => false
  end.

Definition yes (args : list term) : solution := mkSolution 1 args None.
Definition no (args : list term) : solution := mkSolution 0 args None.
Definition raise (args : list term) (ex : term) : solution :=
  mkSolution PL_S_EXCEPTION args (Some ex).

Definition call (kb : list term) (g : term) : solution * list term :=
  match g with
  | Compound "retractall" [p] =>
      (yes [g], filter (fun f => negb (matches p f)) kb)
  | Compound "findall" [template; goal; _] =>
      (yes [Compound "findall"
              [template; goal; list_term (filter (matches goal) kb)]], kb)
  | _ =>
      match find (matches g) kb with
      | Some f => (yes [f], kb)
      | None =>
          if existsb (same_predicate g) kb then (no [g], kb)
          else (raise [g] (Compound "existence_error" [g]), kb)
      end
  end.

Definition next_solution (kb : list term) (predicate : string)
           (args : list term) : solution * list term :=
  match args with
  | [t] =>
      if (String.eqb predicate "assert" || String.eqb predicate "assertz")%bool
      then (yes args, (kb ++ [t])%list)
      else if String.eqb predicate "retract"
      then if existsb (matches t) kb then (yes args, remove_first t kb)
           else (no args, kb)
      else if String.eqb predicate "call" then call kb t
      else (no args, kb)
  | _ => (no args, kb)
  end.

Definition parent (a b : term) : term := Compound "parent" [a; b].

(** The texts the parser knows; every other text is a syntax error. *)
Definition grammar : list (string * term) :=
  [ ("foo(1)", Compound "foo" [Int 1]);
    ("likes(john,pizza)", Compound "likes" [Atom "john"; Atom "pizza"]);
    ("retractall(likes(_,_))",
     Compound "retractall" [Compound "likes" [Var 0; Var 1]]);
    ("retractall()", Compound "retractall" []);
    ("parent(tom,bob)", parent (Atom "tom") (Atom "bob"));
    ("parent(bob,ann)", parent (Atom "bob") (Atom "ann"));
    ("parent(tom, bob)", parent (Atom "tom") (Atom "bob"));
    ("parent(ann, tom)", parent (Atom "ann") (Atom "tom"));
    ("parent(X, Y)", parent (Var 0) (Var 1));
    ("parent(tom, X)", parent (Atom "tom") (Var 0));
    ("findall(parent(X, Y), parent(X, Y), PrologotResults__)",
     Compound "findall" [parent (Var 0) (Var 1); parent (Var 0) (Var 1); Var 2]);
    ("findall(parent(tom, X), parent(tom, X), PrologotResults__)",
     Compound "findall"
              [parent (Atom "tom") (Var 0); parent (Atom "tom") (Var 0); Var 1]);
    ("nonexistent_predicate_xyz(1)",
     Compound "nonexistent_predicate_xyz" [Int 1]) ]
  ++ map (fun p => (p, Compound "clause" [Atom p])) predicates.

Fixpoint lookup (text : string) (g : list (string * term)) : option term :=
  match g with
  | [] => None
  | (s, t) :: rest => if String.eqb s text then Some t else lookup text rest
  end.

Definition render (t : term) : option string :=
  match t with
  | Compound n _ => Some n
  | Atom s => Some s
  | _ => None
  end.

Definition print_variant (v : Variant) : string :=
  match v with
  | VInt i => num_int64 i
  | VBool b => if b then "true" else "false"
  | VString s => s
  | _ => "<null>"
  end.

Definition truthy (v : Variant) : bool :=
  match v with
  | VNil => false
  | VBool b => b
  | VInt i => negb (i =? 0)
  | VString s => negb (is_empty s)
  | VArray a => negb (Nat.eqb (length a) 0)
  | VDict d => negb (Nat.eqb (length d) 0)
  | _ => true
  end.

Definition api : Foreign :=
  mkForeign (list term)
            (fun _ => true)
            None
            (fun _ kb => (true, None, kb))
            (fun _ => [])
            (fun _ text => lookup text grammar)
            next_solution
            render
            (fun kb name arity =>
               existsb (fun f => match PL_get_name_arity f with
                                 | Some (n, a) =>
                                     String.eqb n name && (Z.of_nat a =? arity)
                                 | None => false
                                 end) kb)
            print_variant
            truthy
            None.

(** A fresh object, and the same object after [initialize()]. *)
Definition fresh : World api := Prologot api [].
Definition ready : World api := snd (initialize api [] fresh).

(** The knowledge base of the examples: [parent(tom,bob)] and
    [parent(bob,ann)], asserted in this order. *)
Definition family : World api :=
  snd (add_fact api "parent(bob,ann)"
                (snd (add_fact api "parent(tom,bob)." ready))).

(** The same engine, unable to write an exception term. *)
Definition mute : Foreign :=
  mkForeign (list term)
            (fun _ => true)
            None
            (fun _ kb => (true, None, kb))
            (fun _ => [])
            (fun _ text => lookup text grammar)
            next_solution
            (fun _ => None)
            (fun _ _ _ => false)
            print_variant
            truthy
            None.

Definition mute_family : World mute :=
  mkWorld mute true EmptyString "print" "print"
          [parent (Atom "tom") (Atom "bob")] [] [].

(** The same engine, unable to build floats, with a project whose
    resources live under [/game/]. *)
Definition no_float (t : term) : bool :=
  match t with Float _ => false | _ => true end.

Definition in_project (path : string) : string :=
  "/game/" ++ String.substring 6 (String.length path - 6) path.

Definition floatless : Foreign :=
  mkForeign (list term)
            no_float
            None
            (fun _ kb => (false, Some (Atom "no engine"), kb))
            (fun _ => [])
            (fun _ text => lookup text grammar)
            next_solution
            render
            (fun _ _ _ => false)
            print_variant
            truthy
            (Some in_project).

Definition floatless_family : World floatless :=
  mkWorld floatless true EmptyString "status" "print"
          [parent (Atom "tom") (Atom "bob")] [] [].



(** The same engine, unable to build floats, whose [PL_put_term] accepts
    the invalid term and stores an unbound variable. *)
Definition careless : Foreign :=
  mkForeign (list term)
            no_float
            (Some (Var 0))
            (fun _ kb => (true, None, kb))
            (fun _ => [])
            (fun _ text => lookup text grammar)
            next_solution
            render
            (fun _ _ _ => false)
            print_variant
            truthy
            None.

Definition careless_family : World careless :=
  mkWorld careless true EmptyString "print" "print"
          [parent (Atom "tom") (Atom "bob")] [] [].

End Mini.

(** ** Induction over nested values *)

Section VariantInduction.

Variable P : Variant -> Prop.
Hypothesis PNil : P VNil.
Hypothesis PBool : forall b, P (VBool b).
Hypothesis PInt : forall i, P (VInt i).
Hypothesis PFloat : forall d, P (VFloat d).
Hypothesis PString : forall s, P (VString s).
Hypothesis PArray : forall arr, Forall P arr -> P (VArray arr).
Hypothesis PDict : forall dict, Forall (fun kv => P (snd kv)) dict -> P (VDict dict).
Hypothesis POther : forall k, P (VOther k).

Fixpoint Variant_nested_ind (v : Variant) : P v :=
  match v with
  | VNil => PNil
  | VBool b => PBool b
  | VInt i => PInt i
  | VFloat d => PFloat d
  | VString s => PString s
  | VArray arr =>
      PArray arr
        ((fix elements (l : list Variant) : Forall P l :=
            match l with
            | [] => Forall_nil P
            | x :: rest => Forall_cons x (Variant_nested_ind x) (elements rest)
            end) arr)
  | VDict dict =>
      PDict dict
        ((fix entries (l : Dictionary) : Forall (fun kv => P (snd kv)) l :=
            match l with
            | [] => Forall_nil _
            | kv :: rest =>
                Forall_cons kv (Variant_nested_ind (snd kv)) (entries rest)
            end) dict)
  | VOther k => POther k
  end.

End VariantInduction.

(** ** The statements of the specification *)

(** The kinds the round trip is claimed for: Null, Bool, Int64, Float64,
    String, and sequences of such. *)
Fixpoint claimed_kind (v : Variant) : bool :=
  match v with
  | VNil | VBool _ | VFloat _ | VString _ => true
  | VInt i => in_int64 i
  | VArray arr => forallb claimed_kind arr
  | VDict _ | VOther _ => false
  end.

(** The kinds the round trip holds for: Int64, Float64, String of ASCII
    text, and sequences of such. *)
Fixpoint representable (v : Variant) : bool :=
  match v with
  | VFloat _ => true
  | VString s => ascii_text s
  | VInt i => in_int64 i
  | VArray arr => forallb representable arr
  | VNil | VBool _ | VDict _ | VOther _ => false
  end.

(** [value_from_term (term_from_value v)], with an engine that can build
    every term. *)
Definition round_trip (stringify : Variant -> string) (v : Variant)
  : option Variant :=
  option_map term_to_variant (variant_to_term (fun _ => true) stringify v).

(** "Start with the empty-list term, then for each element from last to
    first, cons a new list cell of (converted element, current list)". *)
Definition proper_list (ts : list term) : term :=
  fold_left (fun current elem => Cons elem current) (rev ts) Nil.


(** The table as the code realises it: the atom of a String carries the
    characters of its UTF-8 encoding, and the term of a Mapping with both
    keys is the one the engine makes of the functor and the arguments,
    [cons_functor]: a compound when there is an argument, the atom of the
    functor when there is none. *)
Inductive term_built (stringify : Variant -> string)
  : Variant -> term -> Prop :=
| built_null :
    term_built stringify VNil (Atom "[]")
| built_bool b :
    term_built stringify (VBool b) (Atom (if b then "true" else "false"))
| built_int i :
    term_built stringify (VInt i) (Int i)
| built_float d :
    term_built stringify (VFloat d) (Float d)
| built_string s :
    term_built stringify (VString s) (Atom (to_chars s))
| built_sequence arr ts :
    Forall2 (term_built stringify) arr ts ->
    term_built stringify (VArray arr) (proper_list ts)
| built_functor dict ts :
    dict_has dict "functor" = true ->
    dict_has dict "args" = true ->
    Forall2 (term_built stringify)
            (as_Array (dict_get dict "args" VNil)) ts ->
    term_built stringify (VDict dict)
      (cons_functor
         (to_chars (as_String stringify (dict_get dict "functor" VNil))) ts)
| built_other_mapping dict :
    (dict_has dict "functor" && dict_has dict "args")%bool = false ->
    term_built stringify (VDict dict) (Atom "[]")
| built_unrecognized k :
    term_built stringify (VOther k) (Atom "[]").

(** A name that looks like a Prolog variable: a String whose first
    character is an uppercase ASCII letter or an underscore. *)
Definition variable_name (v : Variant) : Prop :=
  exists c rest,
    v = VString (String c rest)
    /\ ((65 <= nat_of_ascii c <= 90)%nat \/ c = "_"%char).

(** The eligibility rule of section 4.4. *)
Definition eligible (args : Array) : Prop :=
  args <> [] /\ Forall variable_name args.

(** The query discipline over a sequence of engine calls: a query is
    opened only when none is open, stepped and closed only while one is
    open, and none is left open at the end. *)
Fixpoint paired (is_open : bool) (tr : list Call) : bool :=
  match tr with
  | [] => negb is_open
  | COpenQuery _ _ :: rest => negb is_open && paired true rest
  | CNextSolution :: rest => is_open && paired true rest
  | CCloseQuery :: rest => is_open && paired false rest
  | _ :: rest => negb is_open && paired false rest
  end.

Definition is_open_call (c : Call) : bool :=
  match c with COpenQuery _ _ => true | _ => false end.

Definition is_close_call (c : Call) : bool :=
  match c with CCloseQuery => true | _ => false end.

Definition is_parse_call (c : Call) : bool :=
  match c with CCharsToTerm _ => true | _ => false end.

Definition opens (tr : list Call) : nat := length (filter is_open_call tr).
Definition closes (tr : list Call) : nat := length (filter is_close_call tr).

(** What an operation adds to the calls of [w]: the calls of [w'] are those
    of [w] followed by a sequence that obeys the query discipline and
    closes as often as it opens. *)
Definition closes_what_it_opens {api : Foreign} (w w' : World api) : Prop :=
  exists tr,
    calls w' = (calls w ++ tr)%list
    /\ paired false tr = true
    /\ closes tr = opens tr.


(** The string literals of [initialize] that enter the argument vector. *)
Definition argv_literals : list string :=
  ["godot"; "--quiet"; "-O"; "--traditional"; "--no-threads"; "--no-packs";
   "-f"; "-l"; "-t"; "-g"; "-D"; "-p"].

(** An entry is either one of these literals or a pointer left dangling:
    no text that comes from an option is still stored when [PL_initialise]
    reads the vector. *)
Definition literal_or_dangling (a : argv_entry) : Prop :=
  match a with
  | Literal text => In text argv_literals
  | Dangling _ => True
  end.

(** ** Induction over nested terms *)

Section TermInduction.

Variable P : term -> Prop.
Hypothesis PVar : forall id, P (Var id).
Hypothesis PAtom : forall s, P (Atom s).
Hypothesis PInt : forall i, P (Int i).
Hypothesis PFloat : forall d, P (Float d).
Hypothesis PStr : forall s, P (Str s).
Hypothesis PNil : P Nil.
Hypothesis PCons : forall h tl, P h -> P tl -> P (Cons h tl).
Hypothesis PCompound : forall name args, Forall P args -> P (Compound name args).
Hypothesis PBlob : forall k, P (Blob k).

Fixpoint term_nested_ind (t : term) : P t :=
  match t with
  | Var id => PVar id
  | Atom s => PAtom s
  | Int i => PInt i
  | Float d => PFloat d
  | Str s => PStr s
  | Nil => PNil
  | Cons h tl => PCons h tl (term_nested_ind h) (term_nested_ind tl)
  | Compound name args =>
      PCompound name args
        ((fix arguments (l : list term) : Forall P l :=
            match l with
            | [] => Forall_nil P
            | x :: rest => Forall_cons x (term_nested_ind x) (arguments rest)
            end) args)
  | Blob k => PBlob k
  end.

End TermInduction.

(** ** Shapes of values and terms *)

(** The terms [variant_to_term] rebuilds from what [term_to_variant] reads:
    atoms of ASCII text, integers of 64 bits, floats, proper lists of such
    terms, and compounds of such terms with an ASCII name and at least one
    argument, the functor [[|]] of arity 2 apart. *)
Fixpoint plain_term (t : term) : bool :=
  match t with
  | Float _ | Nil => true
  | Atom s => ascii_text s
  | Int i => in_int64 i
  | Cons h tl => plain_term h && plain_list tl
  | Compound name args =>
      ascii_text name
      && negb (Nat.eqb (length args) 0)
      && negb (Nat.eqb (length args) 2 && String.eqb name LIST_FUNCTOR)
      && forallb plain_term args
  | Var _ | Str _ | Blob _ => false
  end
with plain_list (tl : term) : bool :=
  match tl with
  | Nil => true
  | Cons h tl' => plain_term h && plain_list tl'
  | _ => false
  end.

(** A term without unbound variable, engine string or blob. *)
Fixpoint ground (t : term) : bool :=
  match t with
  | Atom _ | Int _ | Float _ | Nil => true
  | Cons h tl => ground h && ground tl
  | Compound _ args => forallb ground args
  | Var _ | Str _ | Blob _ => false
  end.

(** The values the round trip restores when compounds are counted in: the
    kinds of [representable], and the Mapping with the two entries
    ["functor"], a String of ASCII text, and ["args"], a sequence that is
    not empty, in this order, the functor [[|]] with two arguments
    apart. *)
Fixpoint restorable (v : Variant) : bool :=
  match v with
  | VFloat _ => true
  | VString s => ascii_text s
  | VInt i => in_int64 i
  | VArray arr => forallb restorable arr
  | VDict [(k1, VString f); (k2, VArray args)] =>
      String.eqb k1 "functor" && String.eqb k2 "args"
      && ascii_text f
      && negb (Nat.eqb (length args) 0)
      && negb (Nat.eqb (length args) 2 && String.eqb f LIST_FUNCTOR)
      && forallb restorable args
  | _ => false
  end.

(** The values [term_to_variant] can return: Null, Int64, Float64, String,
    sequences of such values, and the Mapping of a compound. *)
Fixpoint converter_image (v : Variant) : bool :=
  match v with
  | VNil | VFloat _ | VString _ => true
  | VInt i => in_int64 i
  | VArray arr => forallb converter_image arr
  | VDict [(k1, VString _); (k2, VArray args)] =>
      String.eqb k1 "functor" && String.eqb k2 "args"
      && forallb converter_image args
  | _ => false
  end.

(** ** The converter *)

Lemma put_some can_build t t' : put can_build t = Some t' -> t' = t.
Proof.
  unfold put. destruct (can_build t); congruence.
Qed.

Lemma put_total can_build t :
  (forall t, can_build t = true) -> put can_build t = Some t.
Proof.
  intros H. unfold put. now rewrite H.
Qed.

(** Both crossings of the foreign interface leave ASCII text as it is. *)
Lemma c_str_ascii s : ascii_text s = true -> c_str s = s.
Proof.
  induction s as [|c rest IH]; simpl; [reflexivity|].
  intros H. apply andb_prop in H. destruct H as [Hc Hrest].
  destruct (Ascii.eqb_spec c Ascii.zero) as [->|_]; [discriminate|].
  now rewrite IH.
Qed.

Lemma utf8_ascii s : ascii_text s = true -> utf8 s = s.
Proof.
  induction s as [|c rest IH]; simpl; [reflexivity|].
  intros H. apply andb_prop in H. destruct H as [Hc Hrest].
  unfold is_ascii_char in Hc. apply andb_prop in Hc. destruct Hc as [_ Hc].
  unfold utf8_char. rewrite Hc. simpl. now rewrite IH.
Qed.

Lemma to_chars_ascii s : ascii_text s = true -> to_chars s = s.
Proof.
  intros H. unfold to_chars. rewrite (utf8_ascii s H). now apply c_str_ascii.
Qed.

Lemma from_chars_ascii s : ascii_text s = true -> from_chars s = s.
Proof.
  apply c_str_ascii.
Qed.

Lemma dict_with_get {A} key (k : Variant -> A) absent default d :
  dict_has d key = true ->
  dict_with key k absent d = k (dict_get d key default).
Proof.
  induction d as [|[k' v] rest IH]; simpl; [discriminate|].
  destruct (String.eqb k' key); auto.
Qed.

(** The case [Variant::DICTIONARY] of [variant_to_term] in the shape of
    the source: [Array args_arr = dict["args"]], then the loop over it. *)
Lemma variant_to_term_dictionary can_build stringify dict :
  (dict_has dict "functor" && dict_has dict "args")%bool = true ->
  variant_to_term can_build stringify (VDict dict)
  = match put_slots can_build (variant_to_term can_build stringify)
            (as_Array (dict_get dict "args" VNil)) with
    | Some args =>
        PL_cons_functor_v can_build
          (to_chars (as_String stringify (dict_get dict "functor" VNil))) args
    | None => None
    end.
Proof.
  intros H. cbn [variant_to_term]. rewrite H.
  apply andb_prop in H. destruct H as [_ H].
  rewrite (dict_with_get "args" _ _ VNil dict H).
  now destruct (dict_get dict "args" VNil).
Qed.

Lemma proper_list_fold ts : proper_list ts = fold_right Cons Nil ts.
Proof.
  unfold proper_list. rewrite <- fold_left_rev_right, rev_involutive.
  reflexivity.
Qed.

Lemma walk_list ts :
  walk (fold_right Cons Nil ts) = map term_to_variant ts.
Proof.
  induction ts as [|t ts IH]; simpl; [reflexivity|]. now rewrite IH.
Qed.

Lemma get_args_compound name before args :
  get_args (S (length before)) (length args) (Compound name (before ++ args))
  = Some args.
Proof.
  revert before. induction args as [|a args IH]; intros before; simpl.
  - reflexivity.
  - rewrite nth_error_app2, Nat.sub_diag by lia. simpl.
    replace (before ++ a :: args)%list with ((before ++ [a]) ++ args)%list
      by now rewrite <- app_assoc.
    specialize (IH (before ++ [a])%list).
    rewrite length_app, Nat.add_comm in IH. simpl in IH. now rewrite IH.
Qed.

(** [term_to_variant] in the shape of the source: the [switch] on
    [PL_term_type] and, per case, the accessors and their failure exits. *)
Lemma term_to_variant_switch p_term :
  term_to_variant p_term =
  match PL_term_type p_term with
  | PL_VARIABLE => VNil
  | PL_ATOM =>
      match PL_get_atom_chars p_term with
      | Some s => VString (from_chars s)
      | None => VNil
      end
  | PL_INTEGER =>
      match PL_get_int64 p_term with Some i => VInt i | None => VNil end
  | PL_FLOAT =>
      match PL_get_float p_term with Some d => VFloat d | None => VNil end
  | PL_STRING =>
      match PL_get_string_chars p_term with
      | Some s => VString (from_chars s)
      | None => VNil
      end
  | PL_NIL => VArray []
  | PL_LIST_PAIR => VArray (walk p_term)
  | PL_TERM =>
      match PL_get_list p_term with
      | Some (head, tail) => VArray (term_to_variant head :: walk tail)
      | None =>
          match PL_get_name_arity p_term with
          | Some (atom_name, arity) =>
              if (Nat.eqb arity 0 && String.eqb (c_str atom_name) "[]")%bool
              then VArray []
              else
                match get_args 1 arity p_term with
                | Some args =>
                    VDict [("functor", VString (from_chars atom_name));
                           ("args", VArray (map term_to_variant args))]
                | None => VNil
                end
          | None => VNil
          end
      end
  | PL_OTHER => VNil
  end.
Proof.
  destruct p_term as [ | | | | | | | name args | ]; try reflexivity.
  cbn [PL_term_type PL_get_list PL_get_name_arity term_to_variant].
  pose proof (get_args_compound name [] args) as H. cbn [length app] in H.
  now rewrite H.
Qed.

Lemma cons_backwards_read_back can_build convert a lst :
  Forall (fun x => forall t, convert x = Some t -> term_to_variant t = x) a ->
  cons_backwards can_build convert a = Some lst ->
  term_to_variant lst = VArray a /\ walk lst = a.
Proof.
  intros Hall. revert lst.
  induction Hall as [|x rest Hx _ IH]; simpl; intros lst H.
  - apply put_some in H. subst lst. split; reflexivity.
  - destruct (cons_backwards can_build convert rest) as [l1|] eqn:E1;
      [|discriminate].
    destruct (convert x) as [e|] eqn:E2; [|discriminate].
    apply put_some in H. subst lst.
    destruct (IH l1 eq_refl) as [_ Hw].
    simpl. rewrite (Hx e eq_refl), Hw. split; reflexivity.
Qed.

Lemma representable_read_back can_build stringify v :
  representable v = true ->
  forall t, variant_to_term can_build stringify v = Some t ->
            term_to_variant t = v.
Proof.
  induction v as [| b | i | d | s | arr IH | dict _ | k]
    using Variant_nested_ind; simpl; intros Hr t Ht; try discriminate.
  - apply put_some in Ht. subst t. simpl. now rewrite Hr.
  - apply put_some in Ht. now subst t.
  - apply put_some in Ht. subst t. simpl.
    now rewrite (to_chars_ascii s Hr), (from_chars_ascii s Hr).
  - destruct arr as [|x rest].
    + apply put_some in Ht. now subst t.
    + destruct (cons_backwards can_build _ (x :: rest)) as [lst|] eqn:E;
        [|discriminate].
      apply put_some in Ht. subst t.
      eapply cons_backwards_read_back; [|exact E].
      rewrite forallb_forall in Hr. rewrite Forall_forall in IH |- *.
      intros y Hy. apply IH; auto.
Qed.

(** With an engine that can build every term the converter never returns
    the invalid term, and what it returns is the term of the table as the
    code realises it. *)
Lemma variant_to_term_table can_build stringify :
  (forall t, can_build t = true) ->
  forall v,
    (exists t, variant_to_term can_build stringify v = Some t
               /\ term_built stringify v t)
    /\ match v with
       | VArray arr =>
           Forall (fun x => exists t,
                       variant_to_term can_build stringify x = Some t
                       /\ term_built stringify x t) arr
       | _ => True
       end.
Proof.
  intros Hcb.
  assert (Hput : forall t, put can_build t = Some t)
    by (intros; now apply put_total).
  assert (Hlist : forall arr,
             Forall (fun x => exists t,
                         variant_to_term can_build stringify x = Some t
                         /\ term_built stringify x t) arr ->
             exists ts,
               Forall2 (term_built stringify) arr ts
               /\ cons_backwards can_build
                    (variant_to_term can_build stringify) arr
                  = Some (fold_right Cons Nil ts)
               /\ put_slots can_build
                    (variant_to_term can_build stringify) arr = Some ts).
  { induction 1 as [|x rest (t & Ht & Hs) _ (ts & Hf & Hb & Hp)].
    - exists []. simpl. unfold PL_put_nil. rewrite Hput. auto.
    - exists (t :: ts). simpl. rewrite Hb, Ht, Hp.
      unfold PL_cons_list, PL_put_term. rewrite !Hput. auto. }
  induction v as [| b | i | d | s | arr IH | dict IH | k]
    using Variant_nested_ind; simpl;
    unfold PL_put_atom_chars, PL_put_int64, PL_put_float;
    try (split; [eexists; split; [apply Hput | constructor] | exact I]).
  - assert (Hel : Forall (fun x => exists t,
                       variant_to_term can_build stringify x = Some t
                       /\ term_built stringify x t) arr).
    { rewrite Forall_forall in IH |- *. intros x Hx. apply (IH x Hx). }
    split; [|exact Hel].
    destruct (Hlist arr Hel) as (ts & Hf & Hb & _).
    exists (proper_list ts). split; [|now constructor].
    rewrite proper_list_fold.
    destruct arr as [|x rest].
    + inversion Hf; subst. apply Hput.
    + rewrite Hb. apply Hput.
  - split; [|exact I].
    destruct (dict_has dict "functor" && dict_has dict "args")%bool eqn:Hboth.
    + apply andb_prop in Hboth. destruct Hboth as [Hfun Hargs].
      rewrite (dict_with_get "args" _ _ VNil dict Hargs).
      assert (Hel : Forall (fun x => exists t,
                         variant_to_term can_build stringify x = Some t
                         /\ term_built stringify x t)
                      (as_Array (dict_get dict "args" VNil))).
      { assert (Hv : forall key, dict_has dict key = true ->
                   match dict_get dict key VNil with
                   | VArray a =>
                       Forall (fun x => exists t,
                                   variant_to_term can_build stringify x = Some t
                                   /\ term_built stringify x t) a
                   | _ => True
                   end).
        { intros key. clear Hfun Hargs.
          induction IH as [|[k' x] rest Hx _ IHrest]; simpl; [discriminate|].
          destruct (String.eqb k' key); auto. intros _. apply Hx. }
        specialize (Hv "args" Hargs).
        destruct (dict_get dict "args" VNil); simpl; auto. }
      destruct (Hlist _ Hel) as (ts & Hf & _ & Hp).
      exists (cons_functor
                (to_chars (as_String stringify (dict_get dict "functor" VNil)))
                ts).
      split; [|now constructor].
      destruct (dict_get dict "args" VNil) eqn:Eargs; simpl in *;
        try (inversion Hf; subst; unfold PL_cons_functor_v; now rewrite Hput).
      rewrite Hp. unfold PL_cons_functor_v. now rewrite Hput.
    + eexists. split; [apply Hput | now constructor].
Qed.

(** C1, as stated, fails: Null comes back as the String "[]" and
    a Bool comes back as the String "true" or "false", although both are
    among the kinds the round trip is claimed for. *)
Lemma round_trip_null_bool_counterexample :
  claimed_kind VNil = true
  /\ round_trip Mini.print_variant VNil = Some (VString "[]")
  /\ round_trip Mini.print_variant VNil <> Some VNil
  /\ claimed_kind (VBool true) = true
  /\ round_trip Mini.print_variant (VBool true) = Some (VString "true")
  /\ round_trip Mini.print_variant (VBool true) <> Some (VBool true).
Proof.
  repeat split; try reflexivity; discriminate.
Qed.

(** Text outside ASCII is among the kinds the round trip is claimed for,
    and is not restored either: the one character of code 233 is written
    as the two bytes of its UTF-8 encoding, which are read back as two
    characters. *)
Example round_trip_latin1_text :
  claimed_kind (VString (String (ascii_of_nat 233) EmptyString)) = true
  /\ round_trip Mini.print_variant
       (VString (String (ascii_of_nat 233) EmptyString))
     = Some (VString (String (ascii_of_nat 195)
                        (String (ascii_of_nat 169) EmptyString))).
Proof. split; reflexivity. Qed.

(** C1, amended: for every value of kind Int64, Float64, String of ASCII
    text (codes 1 to 127), or sequence of such kinds (nested to any depth),
    the term that [variant_to_term] builds is read back by
    [term_to_variant] as the value itself, and the term is built whenever
    the engine can build terms.  Null and Bool are not restored: Null is
    read back as the String "[]" and a Bool as the String "true" or
    "false". *)
Theorem round_trip_representable can_build stringify v :
  representable v = true ->
  (forall t, variant_to_term can_build stringify v = Some t ->
             term_to_variant t = v)
  /\ ((forall t, can_build t = true) ->
      option_map term_to_variant (variant_to_term can_build stringify v)
      = Some v)
  /\ (forall t, variant_to_term can_build stringify VNil = Some t ->
                term_to_variant t = VString "[]")
  /\ (forall b t, variant_to_term can_build stringify (VBool b) = Some t ->
                  term_to_variant t = VString (if b then "true" else "false")).
Proof.
  intros Hr. repeat split.
  - now apply representable_read_back.
  - intros Hcb.
    destruct (variant_to_term_table can_build stringify Hcb v)
      as [(t & Ht & _) _].
    rewrite Ht. simpl. f_equal. eapply representable_read_back; eauto.
  - simpl. intros t Ht. apply put_some in Ht. now subst t.
  - simpl. intros b t Ht. apply put_some in Ht. subst t. now destruct b.
Qed.

Lemma round_trip_representable_witness :
  round_trip Mini.print_variant
             (VArray [VInt 1; VString "bar"; VArray [VInt 1; VInt 2]])
  = Some (VArray [VInt 1; VString "bar"; VArray [VInt 1; VInt 2]]).
Proof.
  apply (round_trip_representable
           (fun _ => true) Mini.print_variant
           (VArray [VInt 1; VString "bar"; VArray [VInt 1; VInt 2]])
           eq_refl).
  intros t. reflexivity.
Defined.




(** ** Named extraction *)

Lemma variable_name_test s :
  ((String.length s =? 0)%nat
   || ((char_lt (char_at0 s) "A" || char_lt "Z" (char_at0 s))
       && negb (Ascii.eqb (char_at0 s) "_")))%bool = false
  <-> variable_name (VString s).
Proof.
  unfold variable_name. destruct s as [|c rest]; simpl.
  - split; [discriminate|]. intros (c & rest & H & _). discriminate.
  - unfold char_lt.
    change (nat_of_ascii "A") with 65%nat.
    change (nat_of_ascii "Z") with 90%nat.
    split.
    + intros H. exists c, rest. split; [reflexivity|].
      destruct (Ascii.eqb_spec c "_"%char) as [->|Hne]; [now right|left].
      simpl in H. rewrite andb_true_r in H.
      apply orb_false_elim in H. destruct H as [H1 H2].
      apply Nat.ltb_ge in H1, H2. lia.
    + intros (c' & rest' & Heq & Hc). injection Heq as <- <-.
      destruct Hc as [Hc| ->]; [|reflexivity].
      replace (nat_of_ascii c <? 65)%nat with false
        by (symmetry; apply Nat.ltb_ge; lia).
      replace (90 <? nat_of_ascii c)%nat with false
        by (symmetry; apply Nat.ltb_ge; lia).
      reflexivity.
Qed.

Lemma extract_vars_loop_spec args b :
  extract_vars_loop args b = true <-> b = true /\ Forall variable_name args.
Proof.
  induction args as [|v rest IH]; simpl.
  - split; [auto | tauto].
  - assert (Hno : forall P : Prop,
               (forall c r, v <> VString (String c r)) ->
               false = true <-> P /\ Forall variable_name (v :: rest)).
    { intros P Hv. split; [discriminate|]. intros [_ H]. inversion H; subst.
      destruct H2 as (c & r & Hc & _). now apply Hv in Hc. }
    destruct v; try (apply Hno; intros; discriminate).
    destruct (_ || _)%bool eqn:E.
    + split; [discriminate|]. intros [_ H]. inversion H; subst.
      apply variable_name_test in H2. congruence.
    + rewrite IH. apply variable_name_test in E.
      split; intros [Hb Hf]; split; auto. now inversion Hf.
Qed.

Lemma extract_vars_eligible args : extract_vars args = true <-> eligible args.
Proof.
  unfold extract_vars, eligible. rewrite extract_vars_loop_spec.
  destruct args; simpl; split; intros [H1 H2]; split; auto; congruence.
Qed.

Lemma extract_vars_not_eligible args :
  extract_vars args = false <-> ~ eligible args.
Proof.
  rewrite <- extract_vars_eligible. destruct (extract_vars args); split;
    congruence.
Qed.

(** C3: [extract_vars], the flag [query_one] and [query_all] compute, holds
    exactly when the argument list is non-empty and each element is a String
    starting with an uppercase ASCII letter or an underscore; on a solution
    both operations return the Mapping of the named variables when it holds
    and the conversion of the whole term when it does not. *)
Theorem named_extraction_iff_eligible (api : Foreign) :
  (forall args, extract_vars args = true <-> eligible args)
  /\ (forall p args w t sol e,
        m_initialized w = true ->
        is_empty (build_query api p args) = false ->
        PL_chars_to_term api (engine w) (build_query api p args) = Some t ->
        PL_next_solution api (engine w) "call" [t] = (sol, e) ->
        status sol <> PL_S_EXCEPTION ->
        status sol <> 0 ->
        (eligible args ->
         fst (query_one api p args w)
         = VDict (extract_variables api (nth 0 (bound sol) t) args))
        /\ (~ eligible args ->
            fst (query_one api p args w)
            = term_to_variant (nth 0 (bound sol) t)))
  /\ (forall p args w t sol e results,
        m_initialized w = true ->
        is_empty (build_query api p args) = false ->
        PL_chars_to_term api (engine w)
          ("findall(" ++ build_query api p args ++ ", "
             ++ build_query api p args ++ ", PrologotResults__)") = Some t ->
        PL_next_solution api (engine w) "call" [t] = (sol, e) ->
        status sol <> PL_S_EXCEPTION ->
        status sol <> 0 ->
        PL_get_arg 3 (nth 0 (bound sol) t) = Some results ->
        (eligible args ->
         fst (query_all api p args w)
         = each_solution
             (fun head => VDict (extract_variables api head args)) results)
        /\ (~ eligible args ->
            fst (query_all api p args w)
            = each_solution term_to_variant results)).
Proof.
  split; [exact extract_vars_eligible|]. split.
  - intros p args w t sol e Hi Hne Hp Hs Hx H0.
    apply Z.eqb_neq in Hx, H0.
    unfold query_one, chars_to_term, open_next. simpl.
    rewrite Hi, Hne, Hp. simpl. rewrite Hs, Hx, H0. simpl.
    split; intros He.
    + apply extract_vars_eligible in He. now rewrite He.
    + apply extract_vars_not_eligible in He. now rewrite He.
  - intros p args w t sol e results Hi Hne Hp Hs Hx H0 Hr.
    apply Z.eqb_neq in Hx, H0.
    unfold query_all, chars_to_term. rewrite Hi. cbn [negb].
    rewrite Hne, Hp. unfold open_next. cbn [engine log].
    rewrite Hs, Hx, H0. cbn [negb fst]. rewrite Hr.
    split; intros He.
    + apply extract_vars_eligible in He. now rewrite He.
    + apply extract_vars_not_eligible in He. now rewrite He.
Qed.

Lemma named_extraction_iff_eligible_witness :
  fst (query_one Mini.api "parent" [VString "X"; VString "Y"] Mini.family)
  = VDict [("X", VString "tom"); ("Y", VString "bob")]
  /\ fst (query_one Mini.api "parent" [VString "tom"; VString "X"] Mini.family)
     = VDict [("functor", VString "parent");
              ("args", VArray [VString "tom"; VString "bob"])].
Proof.
  split.
  - apply (proj1 (proj2 (named_extraction_iff_eligible Mini.api))
             "parent" [VString "X"; VString "Y"] Mini.family
             (Mini.parent (Var 0) (Var 1))
             (Mini.yes [Mini.parent (Atom "tom") (Atom "bob")])
             (engine Mini.family)
             eq_refl eq_refl eq_refl eq_refl).
    + discriminate.
    + discriminate.
    + apply (proj1 (named_extraction_iff_eligible Mini.api)). reflexivity.
  - apply (proj1 (proj2 (named_extraction_iff_eligible Mini.api))
             "parent" [VString "tom"; VString "X"] Mini.family
             (Mini.parent (Atom "tom") (Var 0))
             (Mini.yes [Mini.parent (Atom "tom") (Atom "bob")])
             (engine Mini.family)
             eq_refl eq_refl eq_refl eq_refl).
    + discriminate.
    + discriminate.
    + intros H.
      apply (proj1 (named_extraction_iff_eligible Mini.api)) in H.
      discriminate.
Defined.

(** ** The calls an operation makes *)

Lemma paired_app o tr1 tr2 :
  paired o tr1 = true -> paired false tr2 = true ->
  paired o (tr1 ++ tr2) = true.
Proof.
  revert o.
  induction tr1 as [|c tr1 IH]; simpl; intros o H1 H2.
  - destruct o; [discriminate | assumption].
  - destruct c; apply andb_prop in H1; destruct H1 as [Ho H1];
      rewrite Ho; simpl; auto.
Qed.

Lemma closes_what_it_opens_refl {api} (w : World api) :
  closes_what_it_opens w w.
Proof.
  exists []. rewrite app_nil_r. repeat split.
Qed.

Lemma closes_what_it_opens_trans {api} (w1 w2 w3 : World api) :
  closes_what_it_opens w1 w2 -> closes_what_it_opens w2 w3 ->
  closes_what_it_opens w1 w3.
Proof.
  intros (tr1 & E1 & P1 & C1) (tr2 & E2 & P2 & C2).
  exists (tr1 ++ tr2)%list. repeat split.
  - now rewrite E2, E1, app_assoc.
  - apply paired_app; auto.
  - unfold closes, opens in *. rewrite !filter_app, !length_app. lia.
Qed.

(** Case analysis on every test an unfolded operation makes. *)
Ltac branches :=
  repeat (cbv beta iota zeta;
          match goal with
          | |- context [match ?x with _ => _ end] =>
              lazymatch x with
              | context [match _ with _ => _ end] => fail
              | _ => destruct x eqn:?
              end
          end);
  cbv beta iota zeta.

Ltac unfold_ops :=
  unfold query, query_all, query_one, add_fact, retract_fact, mutate_fact,
    call_predicate, call_function, consult_file, consult_string,
    predicate_exists, chars_to_term, open_next,
    PL_close_query, handle_prolog_exception, push_error.

Ltac trace_shape :=
  cbn [snd fst calls log set_last_error set_engine print set_initialized
       set_on_error m_on_error m_on_warning m_last_error];
  rewrite <- ?app_assoc; cbn [app];
  first [ apply closes_what_it_opens_refl
        | eexists; split; [reflexivity | split; reflexivity]
        | exists []; rewrite app_nil_r;
          split; [reflexivity | split; reflexivity] ].

Lemma query_closes {api} p args (w : World api) :
  closes_what_it_opens w (snd (query api p args w)).
Proof.
  unfold_ops. branches; unfold closes_what_it_opens; trace_shape.
Qed.

Lemma query_all_closes {api} p args (w : World api) :
  closes_what_it_opens w (snd (query_all api p args w)).
Proof.
  unfold_ops. branches; unfold closes_what_it_opens; trace_shape.
Qed.

Lemma query_one_closes {api} p args (w : World api) :
  closes_what_it_opens w (snd (query_one api p args w)).
Proof.
  unfold_ops. branches; unfold closes_what_it_opens; trace_shape.
Qed.

Lemma mutate_fact_closes {api} predicate context fact (w : World api) :
  closes_what_it_opens w (snd (mutate_fact api predicate context fact w)).
Proof.
  unfold_ops. branches; unfold closes_what_it_opens; trace_shape.
Qed.

Lemma call_predicate_closes {api} p args (w : World api) :
  closes_what_it_opens w (snd (call_predicate api p args w)).
Proof.
  unfold_ops. branches; unfold closes_what_it_opens; trace_shape.
Qed.

Lemma call_function_closes {api} p args (w : World api) :
  closes_what_it_opens w (snd (call_function api p args w)).
Proof.
  unfold_ops. branches; unfold closes_what_it_opens; trace_shape.
Qed.

Lemma consult_file_closes {api} f (w : World api) :
  closes_what_it_opens w (snd (consult_file api f w)).
Proof.
  unfold_ops. branches; unfold closes_what_it_opens; trace_shape.
Qed.

Lemma consult_string_closes {api} code (w : World api) :
  closes_what_it_opens w (snd (consult_string api code w)).
Proof.
  unfold_ops. branches; unfold closes_what_it_opens; trace_shape.
Qed.

Lemma bootstrap_closes {api} ps (w : World api) :
  closes_what_it_opens w (snd (bootstrap api ps w)).
Proof.
  revert w. induction ps as [|p rest IH]; intros w.
  - apply closes_what_it_opens_refl.
  - cbn [bootstrap].
    unfold chars_to_term, open_next, PL_close_query, engine_cleanup.
    branches;
      first [ unfold closes_what_it_opens; trace_shape
            | eapply closes_what_it_opens_trans; [|apply IH];
              unfold closes_what_it_opens; trace_shape ].
Qed.

Lemma initialize_closes {api} options (w : World api) :
  closes_what_it_opens w (snd (initialize api options w)).
Proof.
  unfold initialize.
  destruct (m_initialized w); [apply closes_what_it_opens_refl|].
  set (w1 := set_swi_home_dir api _ _).
  assert (H1 : closes_what_it_opens w w1).
  { subst w1. unfold set_swi_home_dir, closes_what_it_opens.
    branches; trace_shape. }
  destruct (PL_initialise api _ (engine w1)) as [[ok ex] e].
  set (w2 := log api _ (set_engine api e w1)).
  assert (H2 : closes_what_it_opens w w2).
  { eapply closes_what_it_opens_trans; [exact H1|].
    subst w2. unfold closes_what_it_opens. trace_shape. }
  destruct ok; cbn [negb].
  - pose proof (bootstrap_closes (predicates) w2) as H3.
    destruct (bootstrap api predicates w2) as [ok w3]. cbn [snd] in H3.
    assert (H4 : closes_what_it_opens w w3)
      by (eapply closes_what_it_opens_trans; eauto).
    destruct H4 as (tr & E & P & C).
    destruct ok; exists tr; repeat split; auto.
  - destruct H2 as (tr & E & P & C).
    unfold handle_prolog_exception, push_error.
    branches; exists tr; repeat split; auto.
Qed.

Lemma query_trace {api} p args (w : World api) t :
  m_initialized w = true ->
  is_empty (build_query api p args) = false ->
  PL_chars_to_term api (engine w) (build_query api p args) = Some t ->
  calls (snd (query api p args w))
  = (calls w ++ [CCharsToTerm (build_query api p args);
                 COpenQuery "call" [t]; CNextSolution; CCloseQuery])%list.
Proof.
  intros Hi Hne Hp. unfold_ops. rewrite Hi. cbn [negb]. rewrite Hne, Hp.
  branches; cbn [snd calls log set_last_error set_engine print];
    now rewrite <- !app_assoc.
Qed.

Lemma query_one_trace {api} p args (w : World api) t :
  m_initialized w = true ->
  is_empty (build_query api p args) = false ->
  PL_chars_to_term api (engine w) (build_query api p args) = Some t ->
  calls (snd (query_one api p args w))
  = (calls w ++ [CCharsToTerm (build_query api p args);
                 COpenQuery "call" [t]; CNextSolution; CCloseQuery])%list.
Proof.
  intros Hi Hne Hp. unfold_ops. rewrite Hi. cbn [negb]. rewrite Hne, Hp.
  branches; cbn [snd calls log set_last_error set_engine print];
    now rewrite <- !app_assoc.
Qed.

Lemma query_all_trace {api} p args (w : World api) t :
  m_initialized w = true ->
  is_empty (build_query api p args) = false ->
  PL_chars_to_term api (engine w)
    ("findall(" ++ build_query api p args ++ ", "
       ++ build_query api p args ++ ", PrologotResults__)") = Some t ->
  calls (snd (query_all api p args w))
  = (calls w ++ [CCharsToTerm
                   ("findall(" ++ build_query api p args ++ ", "
                      ++ build_query api p args ++ ", PrologotResults__)");
                 COpenQuery "call" [t]; CNextSolution; CCloseQuery])%list.
Proof.
  intros Hi Hne Hp. unfold_ops. rewrite Hi. cbn [negb]. rewrite Hne, Hp.
  branches; cbn [snd calls log set_last_error set_engine print];
    now rewrite <- !app_assoc.
Qed.

(** C4: the calls any operation adds obey the query discipline and close
    as often as they open; and when [query], [query_all] or [query_one]
    reaches the engine with a goal that parses, it makes exactly four calls,
    parse, open, step, close, whatever the step returns: a solution, no
    solution, or an exception. *)
Theorem every_query_closed_once (api : Foreign) (w : World api) :
  (forall p args, closes_what_it_opens w (snd (query api p args w)))
  /\ (forall p args, closes_what_it_opens w (snd (query_all api p args w)))
  /\ (forall p args, closes_what_it_opens w (snd (query_one api p args w)))
  /\ (forall f, closes_what_it_opens w (snd (add_fact api f w)))
  /\ (forall f, closes_what_it_opens w (snd (retract_fact api f w)))
  /\ (forall f, closes_what_it_opens w (snd (retract_all api f w)))
  /\ (forall p args, closes_what_it_opens w (snd (call_predicate api p args w)))
  /\ (forall p args, closes_what_it_opens w (snd (call_function api p args w)))
  /\ (forall f, closes_what_it_opens w (snd (consult_file api f w)))
  /\ (forall c, closes_what_it_opens w (snd (consult_string api c w)))
  /\ closes_what_it_opens w (snd (list_predicates api w))
  /\ (forall o, closes_what_it_opens w (snd (initialize api o w)))
  /\ (forall p args t,
        m_initialized w = true ->
        is_empty (build_query api p args) = false ->
        PL_chars_to_term api (engine w) (build_query api p args) = Some t ->
        calls (snd (query api p args w))
        = (calls w ++ [CCharsToTerm (build_query api p args);
                       COpenQuery "call" [t]; CNextSolution; CCloseQuery])%list
        /\ calls (snd (query_one api p args w))
           = (calls w ++ [CCharsToTerm (build_query api p args);
                          COpenQuery "call" [t]; CNextSolution;
                          CCloseQuery])%list)
  /\ (forall p args t,
        m_initialized w = true ->
        is_empty (build_query api p args) = false ->
        PL_chars_to_term api (engine w)
          ("findall(" ++ build_query api p args ++ ", "
             ++ build_query api p args ++ ", PrologotResults__)") = Some t ->
        calls (snd (query_all api p args w))
        = (calls w ++ [CCharsToTerm
                         ("findall(" ++ build_query api p args ++ ", "
                            ++ build_query api p args ++ ", PrologotResults__)");
                       COpenQuery "call" [t]; CNextSolution;
                       CCloseQuery])%list).
Proof.
  repeat split; intros.
  - apply query_closes.
  - apply query_all_closes.
  - apply query_one_closes.
  - apply mutate_fact_closes.
  - apply mutate_fact_closes.
  - unfold retract_all.
    destruct (negb (m_initialized w));
      [apply closes_what_it_opens_refl | apply query_closes].
  - apply call_predicate_closes.
  - apply call_function_closes.
  - apply consult_file_closes.
  - apply consult_string_closes.
  - unfold list_predicates.
    destruct (negb (m_initialized w));
      [apply closes_what_it_opens_refl | apply query_all_closes].
  - apply initialize_closes.
  - now apply query_trace.
  - now apply query_one_trace.
  - now apply query_all_trace.
Qed.

(** The exception path on the small engine: the query on an unknown
    predicate is opened, stepped into an exception, and closed. *)
Lemma every_query_closed_once_witness :
  calls (snd (query Mini.api "nonexistent_predicate_xyz(1)" [] Mini.family))
  = (calls Mini.family
       ++ [CCharsToTerm "nonexistent_predicate_xyz(1)";
           COpenQuery "call" [Compound "nonexistent_predicate_xyz" [Int 1]];
           CNextSolution; CCloseQuery])%list.
Proof.
  apply (every_query_closed_once Mini.api Mini.family);
    reflexivity.
Defined.

(** ** Before [initialize] *)

Lemma bootstrap_keeps_flag {api} ps (w : World api) :
  m_initialized (snd (bootstrap api ps w)) = m_initialized w.
Proof.
  revert w. induction ps as [|p rest IH]; intros w; [reflexivity|].
  cbn [bootstrap].
  unfold chars_to_term, open_next, PL_close_query, engine_cleanup.
  branches; try reflexivity.
  now rewrite IH.
Qed.

Lemma initialize_failure_flag {api} options (w : World api) :
  fst (initialize api options w) = false ->
  m_initialized (snd (initialize api options w)) = m_initialized w.
Proof.
  unfold initialize.
  destruct (m_initialized w) eqn:Hi; [discriminate|].
  set (w1 := set_swi_home_dir api _ _).
  assert (H1 : m_initialized w1 = false).
  { subst w1. unfold set_swi_home_dir. now branches. }
  destruct (PL_initialise api _ (engine w1)) as [[ok ex] e].
  set (w2 := log api _ (set_engine api e w1)).
  destruct ok; cbn [negb].
  - pose proof (bootstrap_keeps_flag predicates w2) as H3.
    destruct (bootstrap api predicates w2) as [ok w3].
    destruct ok; cbn [fst snd] in *; [discriminate|].
    intros _. now rewrite H3.
  - unfold handle_prolog_exception, push_error. now branches.
Qed.

(** C5: the constructor leaves the object not initialized and a failed
    [initialize] keeps it so; on such an object every operation returns its
    neutral value, false, the empty list or Null, and leaves the object and
    the engine as they were; being total functions, none of them throws. *)
Theorem not_initialized_neutral (api : Foreign) (w : World api) :
  m_initialized w = false ->
  (forall f, consult_file api f w = (false, w))
  /\ (forall c, consult_string api c w = (false, w))
  /\ (forall p args, query api p args w = (false, w))
  /\ (forall p args, query_all api p args w = ([], w))
  /\ (forall p args, query_one api p args w = (VNil, w))
  /\ (forall f, add_fact api f w = (false, w))
  /\ (forall f, retract_fact api f w = (false, w))
  /\ (forall f, retract_all api f w = (false, w))
  /\ (forall p args, call_predicate api p args w = (false, w))
  /\ (forall p args, call_function api p args w = (VNil, w))
  /\ (forall p n, predicate_exists api p n w = (false, w))
  /\ list_predicates api w = ([], w)
  /\ (forall e, m_initialized (Prologot api e) = false)
  /\ (forall options,
        fst (initialize api options w) = false ->
        m_initialized (snd (initialize api options w)) = false).
Proof.
  intros H.
  assert (Hf : forall options,
             fst (initialize api options w) = false ->
             m_initialized (snd (initialize api options w)) = false).
  { intros options Hfail. now rewrite initialize_failure_flag. }
  revert Hf. unfold_ops. unfold retract_all, list_predicates.
  rewrite H. intros Hf. repeat split. exact Hf.
Qed.

Lemma not_initialized_neutral_witness :
  query Mini.api "parent(tom,bob)" [] Mini.fresh = (false, Mini.fresh)
  /\ query_all Mini.api "parent" [VString "X"; VString "Y"] Mini.fresh
     = ([], Mini.fresh)
  /\ query_one Mini.api "parent(tom,bob)" [] Mini.fresh = (VNil, Mini.fresh).
Proof.
  split; [|split];
    apply (not_initialized_neutral Mini.api Mini.fresh eq_refl).
Defined.

(** ** Trailing periods *)

Lemma append_assoc (a b c : string) : ((a ++ b) ++ c = a ++ (b ++ c))%string.
Proof.
  induction a as [|x a IH]; simpl; [reflexivity|]. now rewrite IH.
Qed.

Lemma length_append (a b : string) :
  String.length (a ++ b) = (String.length a + String.length b)%nat.
Proof.
  induction a as [|x a IH]; simpl; [reflexivity|]. now rewrite IH.
Qed.

Lemma get_append_end (a : string) (c : ascii) :
  String.get (String.length a) (a ++ String c EmptyString) = Some c.
Proof.
  induction a as [|x a IH]; simpl; [reflexivity|]. exact IH.
Qed.

Lemma substring_append (a b : string) :
  String.substring 0 (String.length a) (a ++ b) = a.
Proof.
  induction a as [|x a IH]; simpl.
  - now destruct b.
  - now rewrite IH.
Qed.

Lemma last_char_append (a : string) (c : ascii) :
  last_char (a ++ String c EmptyString) = Some c.
Proof.
  unfold last_char. rewrite length_append. simpl.
  replace (String.length a + 1 - 1)%nat with (String.length a) by lia.
  apply get_append_end.
Qed.

Lemma remove_trailing_period_append s :
  remove_trailing_period (s ++ ".") = s.
Proof.
  unfold remove_trailing_period.
  rewrite last_char_append, length_append. simpl.
  replace (String.length s + 1 - 1)%nat with (String.length s) by lia.
  replace (0 <? String.length s + 1)%nat with true
    by (symmetry; apply Nat.ltb_lt; lia).
  simpl. apply substring_append.
Qed.

Lemma remove_trailing_period_id s :
  last_char s <> Some "."%char -> remove_trailing_period s = s.
Proof.
  unfold remove_trailing_period. intros H.
  destruct (0 <? String.length s)%nat; simpl; [|reflexivity].
  destruct (last_char s) as [c|]; [|reflexivity].
  destruct (Ascii.eqb_spec c "."%char) as [->|]; [now elim H | reflexivity].
Qed.




Lemma mutate_fact_true_iff (api : Foreign) predicate context f (w : World api) :
  fst (mutate_fact api predicate context f w) = true
  <-> m_initialized w = true
      /\ is_empty f = false
      /\ exists t,
          PL_chars_to_term api (engine w) (remove_trailing_period f) = Some t
          /\ status (fst (PL_next_solution api (engine w) predicate [t])) <> 0
          /\ status (fst (PL_next_solution api (engine w) predicate [t]))
             <> PL_S_EXCEPTION.
Proof.
  unfold mutate_fact, chars_to_term, open_next. cbn [engine log].
  destruct (m_initialized w); cbn [negb];
    [|split; [discriminate | intros [H _]; discriminate]].
  destruct (is_empty f);
    [split; [discriminate | intros (_ & H & _); discriminate]|].
  destruct (PL_chars_to_term api (engine w) (remove_trailing_period f))
    as [t|]; [|split; [discriminate | intros (_ & _ & t & H & _); discriminate]].
  destruct (PL_next_solution api (engine w) predicate [t]) as [sol e] eqn:E.
  destruct (status sol =? PL_S_EXCEPTION) eqn:Ex.
  - apply Z.eqb_eq in Ex.
    destruct (handle_prolog_exception api (pending sol) context _).
    split; [discriminate|].
    intros (_ & _ & t' & Ht & _ & H). injection Ht as <-.
    rewrite E in H. now elim H.
  - apply Z.eqb_neq in Ex. cbn [fst]. rewrite negb_true_iff, Z.eqb_neq.
    split.
    + intros H0. repeat split. exists t. rewrite E. auto.
    + intros (_ & _ & t' & Ht & H0 & _). injection Ht as <-.
      now rewrite E in H0.
Qed.

Lemma query_true_iff (api : Foreign) p args (w : World api) :
  fst (query api p args w) = true
  <-> m_initialized w = true
      /\ is_empty (build_query api p args) = false
      /\ exists t,
          PL_chars_to_term api (engine w) (build_query api p args) = Some t
          /\ status (fst (PL_next_solution api (engine w) "call" [t])) <> 0
          /\ status (fst (PL_next_solution api (engine w) "call" [t]))
             <> PL_S_EXCEPTION.
Proof.
  unfold query, chars_to_term, open_next. cbn [engine log].
  destruct (m_initialized w); cbn [negb];
    [|split; [discriminate | intros [H _]; discriminate]].
  destruct (is_empty (build_query api p args));
    [split; [discriminate | intros (_ & H & _); discriminate]|].
  destruct (PL_chars_to_term api (engine w) (build_query api p args))
    as [t|]; [|split; [discriminate | intros (_ & _ & t & H & _); discriminate]].
  destruct (PL_next_solution api (engine w) "call" [t]) as [sol e] eqn:E.
  destruct (status sol =? PL_S_EXCEPTION) eqn:Ex.
  - apply Z.eqb_eq in Ex.
    destruct (handle_prolog_exception api (pending sol) "Query" _).
    split; [discriminate|].
    intros (_ & _ & t' & Ht & _ & H). injection Ht as <-.
    rewrite E in H. now elim H.
  - apply Z.eqb_neq in Ex. cbn [fst]. rewrite negb_true_iff, Z.eqb_neq.
    split.
    + intros H0. repeat split. exists t. rewrite E. auto.
    + intros (_ & _ & t' & Ht & H0 & _). injection Ht as <-.
      now rewrite E in H0.
Qed.




(** ** [retract_all] *)

Lemma append_nil_r (s : string) : (s ++ EmptyString)%string = s.
Proof.
  induction s as [|c s IH]; simpl; [reflexivity|]. now rewrite IH.
Qed.




(** ** Blank input *)

(** C8, at the blank pattern of [retract_all]: the operations that carry the test
    [is_empty()] reject a blank text with an error and no call to the
    engine; [retract_all] carries no such test and hands the text
    [retractall()] to the parser, and [query] with a blank predicate and
    arguments hands over the text built from the arguments. *)
Theorem blank_input_reaches_parser (api : Foreign) (w : World api) :
  m_initialized w = true ->
  (consult_file api EmptyString w = (false, set_last_error api "Empty filename" w)
   /\ consult_string api EmptyString w
      = (false, set_last_error api "Empty Prolog code" w)
   /\ add_fact api EmptyString w = (false, set_last_error api "Empty fact" w)
   /\ retract_fact api EmptyString w = (false, set_last_error api "Empty fact" w)
   /\ (forall args,
         call_predicate api EmptyString args w
         = (false, set_last_error api "Empty predicate name" w))
   /\ (forall args,
         call_function api EmptyString args w
         = (VNil, set_last_error api "Empty predicate name" w))
   /\ query api EmptyString [] w = (false, set_last_error api "Empty query" w)
   /\ query_one api EmptyString [] w = (VNil, set_last_error api "Empty query" w)
   /\ query_all api EmptyString [] w = ([], set_last_error api "Empty query" w))
  /\ (exists tr,
        calls (snd (retract_all api EmptyString w))
        = (calls w ++ CCharsToTerm "retractall()" :: tr)%list)
  /\ (exists tr,
        calls (snd (query api EmptyString [VString "X"] w))
        = (calls w ++ CCharsToTerm "(X)" :: tr)%list).
Proof.
  intros Hi. split; [|split].
  - unfold_ops. rewrite Hi. repeat split.
  - unfold retract_all. unfold_ops. rewrite Hi. cbn [negb].
    change (build_query api ("retractall(" ++ remove_trailing_period EmptyString ++ ")") [])
      with "retractall()".
    cbn [is_empty String.length Nat.eqb].
    branches; cbn [snd calls log set_last_error set_engine print];
      rewrite <- ?app_assoc; cbn [app]; eexists; reflexivity.
  - unfold_ops. rewrite Hi. cbn [negb].
    change (build_query api EmptyString [VString "X"]) with "(X)".
    cbn [is_empty String.length Nat.eqb].
    branches; cbn [snd calls log set_last_error set_engine print];
      rewrite <- ?app_assoc; cbn [app]; eexists; reflexivity.
Qed.

Lemma blank_input_reaches_parser_witness :
  exists tr,
    calls (snd (retract_all Mini.api EmptyString Mini.ready))
    = (calls Mini.ready ++ CCharsToTerm "retractall()" :: tr)%list.
Proof.
  apply (blank_input_reaches_parser Mini.api Mini.ready eq_refl).
Defined.

(** ** The life cycle *)

Lemma bootstrap_keeps_error {api} ps (w : World api) :
  fst (bootstrap api ps w) = true ->
  m_last_error (snd (bootstrap api ps w)) = m_last_error w.
Proof.
  revert w. induction ps as [|p rest IH]; intros w; [reflexivity|].
  cbn [bootstrap].
  unfold chars_to_term, open_next, PL_close_query, engine_cleanup.
  branches; cbn [fst]; try discriminate.
  intros H. rewrite (IH _ H). reflexivity.
Qed.

Lemma initialize_sets_flag {api} options (w : World api) :
  fst (initialize api options w) = true ->
  m_initialized (snd (initialize api options w)) = true
  /\ m_last_error (snd (initialize api options w)) = m_last_error w.
Proof.
  unfold initialize.
  destruct (m_initialized w) eqn:Hi; [now split|].
  set (w1 := set_swi_home_dir api _ _).
  assert (H1 : m_last_error w1 = m_last_error w).
  { subst w1. unfold set_swi_home_dir. now branches. }
  destruct (PL_initialise api _ (engine w1)) as [[ok ex] e].
  set (w2 := log api _ (set_engine api e w1)).
  destruct ok; cbn [negb].
  - pose proof (bootstrap_keeps_error predicates w2) as H3.
    destruct (bootstrap api predicates w2) as [ok w3].
    destruct ok; cbn [fst snd] in *; [|discriminate].
    intros _. split; [reflexivity|].
    cbn [m_last_error set_initialized]. rewrite (H3 eq_refl). exact H1.
  - unfold handle_prolog_exception. branches; discriminate.
Qed.

(** C9: [initialize] on an initialized object returns true and changes
    nothing, no call to the engine included; so does [cleanup] on an
    object that is not initialized; after [cleanup] the object is not
    initialized, and a second [cleanup] changes nothing; a second
    [initialize] after a successful one returns true and changes nothing. *)
Theorem lifecycle_idempotent (api : Foreign) (w : World api) :
  (m_initialized w = true ->
   forall options, initialize api options w = (true, w))
  /\ (m_initialized w = false -> cleanup api w = w)
  /\ is_initialized api (cleanup api w) = false
  /\ cleanup api (cleanup api w) = cleanup api w
  /\ (forall options options',
        fst (initialize api options w) = true ->
        initialize api options' (snd (initialize api options w))
        = (true, snd (initialize api options w))).
Proof.
  repeat split.
  - intros H options. unfold initialize. now rewrite H.
  - intros H. unfold cleanup. now rewrite H.
  - unfold cleanup, is_initialized.
    destruct (m_initialized w) eqn:H; [reflexivity | exact H].
  - unfold cleanup at 1.
    replace (m_initialized (cleanup api w)) with false; [reflexivity|].
    unfold cleanup. destruct (m_initialized w) eqn:H; [reflexivity | now symmetry].
  - intros options options' H.
    apply initialize_sets_flag in H. destruct H as [H _].
    unfold initialize at 1. now rewrite H.
Qed.

Lemma lifecycle_idempotent_witness :
  initialize Mini.api [] Mini.ready = (true, Mini.ready)
  /\ cleanup Mini.api Mini.fresh = Mini.fresh
  /\ initialize Mini.api [] (snd (initialize Mini.api [] Mini.fresh))
     = (true, snd (initialize Mini.api [] Mini.fresh)).
Proof.
  split; [|split].
  - apply (proj1 (lifecycle_idempotent Mini.api Mini.ready) eq_refl).
  - apply (proj1 (proj2 (lifecycle_idempotent Mini.api Mini.fresh)) eq_refl).
  - apply (proj2 (proj2 (proj2 (proj2
             (lifecycle_idempotent Mini.api Mini.fresh)))) [] [] eq_refl).
Defined.

(** ** The last error *)

(** Every operation that writes [m_last_error] returns its failure value. *)
Ltac keeps_error :=
  unfold_ops; branches; cbn [fst snd]; intros; try discriminate;
  try congruence; reflexivity.

Lemma query_keeps_error {api} p args (w : World api) :
  fst (query api p args w) = true ->
  m_last_error (snd (query api p args w)) = m_last_error w.
Proof. keeps_error. Qed.

Lemma mutate_fact_keeps_error {api} predicate context f (w : World api) :
  fst (mutate_fact api predicate context f w) = true ->
  m_last_error (snd (mutate_fact api predicate context f w)) = m_last_error w.
Proof. keeps_error. Qed.

Lemma call_predicate_keeps_error {api} p args (w : World api) :
  fst (call_predicate api p args w) = true ->
  m_last_error (snd (call_predicate api p args w)) = m_last_error w.
Proof. keeps_error. Qed.

Lemma consult_file_keeps_error {api} f (w : World api) :
  fst (consult_file api f w) = true ->
  m_last_error (snd (consult_file api f w)) = m_last_error w.
Proof. keeps_error. Qed.

Lemma consult_string_keeps_error {api} c (w : World api) :
  fst (consult_string api c w) = true ->
  m_last_error (snd (consult_string api c w)) = m_last_error w.
Proof. keeps_error. Qed.

Lemma query_one_keeps_error {api} p args (w : World api) :
  fst (query_one api p args w) <> VNil ->
  m_last_error (snd (query_one api p args w)) = m_last_error w.
Proof. keeps_error. Qed.

Lemma query_all_keeps_error {api} p args (w : World api) :
  fst (query_all api p args w) <> [] ->
  m_last_error (snd (query_all api p args w)) = m_last_error w.
Proof. keeps_error. Qed.

Lemma call_function_keeps_error {api} p args (w : World api) :
  fst (call_function api p args w) <> VNil ->
  m_last_error (snd (call_function api p args w)) = m_last_error w.
Proof. keeps_error. Qed.

Lemma no_exception_keeps_error {api} p args (w : World api) t :
  is_empty (build_query api p args) = false ->
  PL_chars_to_term api (engine w) (build_query api p args) = Some t ->
  status (fst (PL_next_solution api (engine w) "call" [t])) <> PL_S_EXCEPTION ->
  m_last_error (snd (query api p args w)) = m_last_error w
  /\ m_last_error (snd (query_one api p args w)) = m_last_error w.
Proof.
  intros Hne Hp Hx. apply Z.eqb_neq in Hx.
  unfold query, query_one, chars_to_term, open_next.
  rewrite Hne, Hp. cbn [engine log].
  destruct (PL_next_solution api (engine w) "call" [t]) as [sol e].
  cbn [fst] in Hx. rewrite Hx.
  destruct (m_initialized w); split; reflexivity.
Qed.

Lemma no_exception_keeps_error_all {api} p args (w : World api) t :
  is_empty (build_query api p args) = false ->
  PL_chars_to_term api (engine w)
    ("findall(" ++ build_query api p args ++ ", "
       ++ build_query api p args ++ ", PrologotResults__)") = Some t ->
  status (fst (PL_next_solution api (engine w) "call" [t])) <> PL_S_EXCEPTION ->
  m_last_error (snd (query_all api p args w)) = m_last_error w.
Proof.
  intros Hne Hp Hx. apply Z.eqb_neq in Hx.
  unfold query_all, chars_to_term, open_next.
  rewrite Hne, Hp. cbn [engine log].
  destruct (PL_next_solution api (engine w) "call" [t]) as [sol e].
  cbn [fst] in Hx. rewrite Hx.
  destruct (m_initialized w); reflexivity.
Qed.

(** C10: an operation that succeeds leaves [m_last_error] as it was.  The
    operations that return a bool leave it when they return true; those
    that return a value leave it when the value is not the failure value,
    and [query_one] and [query_all] also whenever the goal parses and the
    step raises no exception; no operation clears it.  So the text an
    operation has recorded is still what [get_last_error] returns after a
    later operation has succeeded. *)
Theorem success_keeps_last_error (api : Foreign) (w : World api) :
  (forall p args,
      fst (query api p args w) = true ->
      get_last_error api (snd (query api p args w)) = get_last_error api w)
  /\ (forall f,
        fst (add_fact api f w) = true ->
        get_last_error api (snd (add_fact api f w)) = get_last_error api w)
  /\ (forall f,
        fst (retract_fact api f w) = true ->
        get_last_error api (snd (retract_fact api f w)) = get_last_error api w)
  /\ (forall f,
        fst (retract_all api f w) = true ->
        get_last_error api (snd (retract_all api f w)) = get_last_error api w)
  /\ (forall p args,
        fst (call_predicate api p args w) = true ->
        get_last_error api (snd (call_predicate api p args w))
        = get_last_error api w)
  /\ (forall f,
        fst (consult_file api f w) = true ->
        get_last_error api (snd (consult_file api f w)) = get_last_error api w)
  /\ (forall c,
        fst (consult_string api c w) = true ->
        get_last_error api (snd (consult_string api c w))
        = get_last_error api w)
  /\ (forall o,
        fst (initialize api o w) = true ->
        get_last_error api (snd (initialize api o w)) = get_last_error api w)
  /\ (forall p n,
        get_last_error api (snd (predicate_exists api p n w))
        = get_last_error api w)
  /\ get_last_error api (cleanup api w) = get_last_error api w
  /\ (forall p args,
        fst (query_one api p args w) <> VNil ->
        get_last_error api (snd (query_one api p args w))
        = get_last_error api w)
  /\ (forall p args,
        fst (query_all api p args w) <> [] ->
        get_last_error api (snd (query_all api p args w))
        = get_last_error api w)
  /\ (forall p args,
        fst (call_function api p args w) <> VNil ->
        get_last_error api (snd (call_function api p args w))
        = get_last_error api w)
  /\ (fst (list_predicates api w) <> [] ->
      get_last_error api (snd (list_predicates api w)) = get_last_error api w)
  /\ (forall p args t,
        is_empty (build_query api p args) = false ->
        PL_chars_to_term api (engine w) (build_query api p args) = Some t ->
        status (fst (PL_next_solution api (engine w) "call" [t]))
        <> PL_S_EXCEPTION ->
        get_last_error api (snd (query_one api p args w))
        = get_last_error api w)
  /\ (forall p args t,
        is_empty (build_query api p args) = false ->
        PL_chars_to_term api (engine w)
          ("findall(" ++ build_query api p args ++ ", "
             ++ build_query api p args ++ ", PrologotResults__)") = Some t ->
        status (fst (PL_next_solution api (engine w) "call" [t]))
        <> PL_S_EXCEPTION ->
        get_last_error api (snd (query_all api p args w))
        = get_last_error api w)
  /\ (forall p args,
        m_initialized w = true ->
        get_last_error api (snd (add_fact api EmptyString w)) = "Empty fact"
        /\ (fst (query api p args (snd (add_fact api EmptyString w))) = true ->
            get_last_error api
              (snd (query api p args (snd (add_fact api EmptyString w))))
            = "Empty fact")).
Proof.
  unfold get_last_error. repeat split; intros.
  - now apply query_keeps_error.
  - now apply mutate_fact_keeps_error.
  - now apply mutate_fact_keeps_error.
  - revert H. unfold retract_all.
    destruct (negb (m_initialized w)); [discriminate|].
    apply query_keeps_error.
  - now apply call_predicate_keeps_error.
  - now apply consult_file_keeps_error.
  - now apply consult_string_keeps_error.
  - now apply initialize_sets_flag.
  - unfold predicate_exists. now destruct (negb (m_initialized w)).
  - unfold cleanup. now destruct (m_initialized w).
  - now apply query_one_keeps_error.
  - now apply query_all_keeps_error.
  - now apply call_function_keeps_error.
  - revert H. unfold list_predicates.
    destruct (negb (m_initialized w)); [intros H; now elim H|].
    apply query_all_keeps_error.
  - eapply no_exception_keeps_error; eauto.
  - eapply no_exception_keeps_error_all; eauto.
  - unfold add_fact, mutate_fact. rewrite H. reflexivity.
  - rewrite (query_keeps_error _ _ _ H0).
    unfold add_fact, mutate_fact. rewrite H. reflexivity.
Qed.

(** An error is recorded, then a query succeeds: the error is still there. *)
Lemma success_keeps_last_error_witness :
  fst (query Mini.api "parent(tom, bob)" []
         (snd (add_fact Mini.api EmptyString Mini.family))) = true
  /\ get_last_error Mini.api
       (snd (query Mini.api "parent(tom, bob)" []
               (snd (add_fact Mini.api EmptyString Mini.family))))
     = "Empty fact".
Proof.
  split; [reflexivity|].
  apply (proj1 (success_keeps_last_error
                  Mini.api (snd (add_fact Mini.api EmptyString Mini.family)))
               "parent(tom, bob)" [] eq_refl).
Defined.

(** ** The examples of section 8, run on the small engine *)

(** Compound round trip. *)
Example compound_round_trip :
  round_trip Mini.print_variant
    (VDict [("functor", VString "foo");
            ("args", VArray [VInt 1; VString "bar"; VArray [VInt 1; VInt 2]])])
  = Some (VDict [("functor", VString "foo");
                 ("args", VArray [VInt 1; VString "bar";
                                  VArray [VInt 1; VInt 2]])]).
Proof. reflexivity. Qed.

(** Unbound-variable asymmetry. *)
Example unbound_variable_is_null :
  term_to_variant (Var 0) = VNil
  /\ variant_to_term (fun _ => true) Mini.print_variant VNil = Some (Atom "[]").
Proof. split; reflexivity. Qed.

(** Query success and failure. *)
Example query_parent :
  fst (query Mini.api "parent" [VString "tom"; VString "bob"] Mini.family)
  = true
  /\ fst (query Mini.api "parent" [VString "ann"; VString "tom"] Mini.family)
     = false.
Proof. split; reflexivity. Qed.

(** [query_all] with variable extraction, in assertion order. *)
Example query_all_parent :
  fst (query_all Mini.api "parent" [VString "X"; VString "Y"] Mini.family)
  = [VDict [("X", VString "tom"); ("Y", VString "bob")];
     VDict [("X", VString "bob"); ("Y", VString "ann")]].
Proof. reflexivity. Qed.

(** The exception path. *)
Example query_unknown_predicate :
  fst (query Mini.api "nonexistent_predicate_xyz(1)" [] Mini.family) = false
  /\ get_last_error Mini.api
       (snd (query Mini.api "nonexistent_predicate_xyz(1)" [] Mini.family))
     = "Query error: existence_error".
Proof. split; reflexivity. Qed.

(** Idempotent life cycle. *)
Example initialize_twice :
  fst (initialize Mini.api [] Mini.fresh) = true
  /\ fst (initialize Mini.api [] Mini.ready) = true
  /\ cleanup Mini.api (cleanup Mini.api Mini.ready) = cleanup Mini.api Mini.ready.
Proof. repeat split. Qed.

(** ** More on the converter *)

(** Induction over values that also hands out the elements of a sequence
    stored in a Mapping. *)
Lemma Variant_deep_ind (P : Variant -> Prop) :
  P VNil -> (forall b, P (VBool b)) -> (forall i, P (VInt i)) ->
  (forall d, P (VFloat d)) -> (forall s, P (VString s)) ->
  (forall arr, Forall P arr -> P (VArray arr)) ->
  (forall dict,
      Forall (fun kv => P (snd kv)
                        /\ Forall P (as_Array (snd kv))) dict ->
      P (VDict dict)) ->
  (forall k, P (VOther k)) ->
  forall v, P v.
Proof.
  intros HN HB HI HF HS HA HD HO v.
  enough (H : P v /\ Forall P (as_Array v)) by apply H.
  induction v as [| b | i | d | s | arr IH | dict IH | k]
    using Variant_nested_ind; simpl;
    try (split; [solve [auto] | constructor]).
  assert (Hel : Forall P arr).
  { rewrite Forall_forall in IH |- *. intros x Hx. apply (IH x Hx). }
  split; [apply HA|]; exact Hel.
Qed.

Lemma dict_get_elements (P : Variant -> Prop) dict key :
  Forall (fun kv => P (snd kv) /\ Forall P (as_Array (snd kv))) dict ->
  Forall P (as_Array (dict_get dict key VNil)).
Proof.
  induction 1 as [|[k v] rest [_ Hv] _ IH]; simpl; [constructor|].
  destruct (String.eqb k key); assumption.
Qed.

Lemma cons_backwards_inv can_build convert a lst :
  cons_backwards can_build convert a = Some lst ->
  exists ts,
    Forall2 (fun x t => convert x = Some t) a ts
    /\ lst = fold_right Cons Nil ts.
Proof.
  revert lst. induction a as [|x rest IH]; simpl; intros lst H.
  - apply put_some in H. subst. exists []. split; constructor.
  - destruct (cons_backwards can_build convert rest) as [l1|] eqn:E1;
      [|discriminate].
    destruct (convert x) as [e|] eqn:E2; [|discriminate].
    apply put_some in H. subst lst.
    destruct (IH l1 eq_refl) as (ts & Hf & ->).
    exists (e :: ts). split; [constructor; assumption | reflexivity].
Qed.

Lemma put_slots_inv can_build convert a ts :
  put_slots can_build convert a = Some ts ->
  Forall2 (fun x t => convert x = Some t) a ts.
Proof.
  revert ts. induction a as [|x rest IH]; simpl; intros ts H.
  - injection H as <-. constructor.
  - destruct (convert x) as [e|] eqn:E2; [|discriminate].
    unfold PL_put_term in H.
    destruct (put can_build e) as [e'|] eqn:E3; [|discriminate].
    apply put_some in E3. subst e'.
    destruct (put_slots can_build convert rest) as [r|] eqn:E1;
      [|discriminate].
    injection H as <-. constructor; auto.
Qed.

Lemma cons_backwards_total can_build convert a ts :
  (forall t, can_build t = true) ->
  Forall2 (fun x t => convert x = Some t) a ts ->
  cons_backwards can_build convert a = Some (fold_right Cons Nil ts)
  /\ put_slots can_build convert a = Some ts.
Proof.
  intros Hcb. induction 1 as [|x t rest ts Hx _ [IH1 IH2]]; simpl.
  - unfold PL_put_nil. now rewrite put_total.
  - rewrite IH1, IH2, Hx. unfold PL_cons_list, PL_put_term.
    now rewrite !put_total.
Qed.

(** What [variant_to_term] returns for a value that is not of the first
    five kinds, in terms of the conversions of the elements. *)
Lemma variant_to_term_inv can_build stringify v t :
  variant_to_term can_build stringify v = Some t ->
  match v with
  | VArray arr =>
      exists ts,
        Forall2 (fun x t => variant_to_term can_build stringify x = Some t)
                arr ts
        /\ t = fold_right Cons Nil ts
  | VDict dict =>
      if (dict_has dict "functor" && dict_has dict "args")%bool then
        exists ts,
          Forall2 (fun x t => variant_to_term can_build stringify x = Some t)
                  (as_Array (dict_get dict "args" VNil)) ts
          /\ t = cons_functor
                  (to_chars (as_String stringify (dict_get dict "functor" VNil)))
                  ts
      else t = Atom "[]"
  | _ => True
  end.
Proof.
  destruct v as [| b | i | d | s | arr | dict | k]; try exact (fun _ => I).
  - cbn [variant_to_term]. destruct arr as [|x rest].
    + intros H. apply put_some in H. subst. exists []. split; constructor.
    + destruct (cons_backwards _ _ (x :: rest)) as [lst|] eqn:E;
        [|discriminate].
      intros H. apply put_some in H. subst t.
      now apply cons_backwards_inv in E.
  - destruct (dict_has dict "functor" && dict_has dict "args")%bool eqn:Hb.
    + rewrite (variant_to_term_dictionary _ _ _ Hb).
      destruct (put_slots _ _ _) as [ts|] eqn:E; [|discriminate].
      intros H. apply put_some in H. subst t.
      exists ts. split; [now apply put_slots_inv in E | reflexivity].
    + cbn [variant_to_term]. rewrite Hb. intros H. now apply put_some in H.
Qed.

Lemma forallb_Forall2_r {A B} (f : B -> bool) (R : A -> B -> Prop) l l' :
  Forall2 R l l' -> Forall (fun x => forall y, R x y -> f y = true) l ->
  forallb f l' = true.
Proof.
  induction 1 as [|x y l l' Hxy _ IH]; intros Hall; [reflexivity|].
  inversion Hall; subst. simpl. rewrite (H1 y Hxy). now apply IH.
Qed.

Lemma ground_cons_functor name ts :
  ground (cons_functor name ts) = forallb ground ts.
Proof.
  destruct ts as [|a [|b [|c rest]]]; simpl; try reflexivity.
  destruct (String.eqb name LIST_FUNCTOR); simpl;
    now rewrite ?andb_true_r.
Qed.

(** With an argument, and the list pair apart, the functor makes a
    compound. *)
Lemma cons_functor_compound name args :
  Nat.eqb (length args) 0 = false ->
  (Nat.eqb (length args) 2 && String.eqb name LIST_FUNCTOR)%bool = false ->
  cons_functor name args = Compound name args.
Proof.
  destruct args as [|a [|b [|c rest]]]; simpl; try reflexivity;
    [discriminate|].
  intros _ H. now rewrite H.
Qed.

Lemma ground_list ts :
  ground (fold_right Cons Nil ts) = forallb ground ts.
Proof.
  induction ts as [|t ts IH]; simpl; [reflexivity|]. now rewrite IH.
Qed.

(** Every term [variant_to_term] builds is ground: no unbound variable, no
    engine string and no blob occurs in it, whatever the value. *)
Theorem variant_to_term_ground can_build stringify v t :
  variant_to_term can_build stringify v = Some t -> ground t = true.
Proof.
  revert t.
  induction v as [| b | i | d | s | arr IH | dict IH | k]
    using Variant_deep_ind; intros t Ht;
    try (cbn in Ht; apply put_some in Ht; now subst t).
  - apply variant_to_term_inv in Ht. destruct Ht as (ts & Hf & ->).
    rewrite ground_list. eapply forallb_Forall2_r; [exact Hf | exact IH].
  - apply variant_to_term_inv in Ht.
    destruct (dict_has dict "functor" && dict_has dict "args")%bool;
      [|now subst t].
    destruct Ht as (ts & Hf & ->). rewrite ground_cons_functor.
    eapply forallb_Forall2_r; [exact Hf|].
    now apply dict_get_elements.
Qed.

Lemma variant_to_term_ground_witness :
  ground (Compound "foo" [Atom "[]"; Cons (Atom "true") Nil]) = true.
Proof.
  apply (variant_to_term_ground
           (fun _ => true) Mini.print_variant
           (VDict [("functor", VString "foo");
                   ("args", VArray [VNil; VArray [VBool true]])])).
  reflexivity.
Defined.

Lemma Forall2_exists_l {A B} (R : A -> B -> Prop) l l' x :
  Forall2 R l l' -> In x l -> exists y, R x y.
Proof.
  induction 1 as [|a b l l' Hab _ IH]; intros Hin; [contradiction|].
  destruct Hin as [<-|Hin]; eauto.
Qed.

(** A conversion that fails inside makes the whole conversion fail: when
    one element of a sequence, or one argument of a Mapping with "functor"
    and "args", yields the invalid term, so does the value around it. *)
Theorem variant_to_term_short_circuit can_build stringify x :
  variant_to_term can_build stringify x = None ->
  (forall arr,
      In x arr -> variant_to_term can_build stringify (VArray arr) = None)
  /\ (forall dict,
        (dict_has dict "functor" && dict_has dict "args")%bool = true ->
        In x (as_Array (dict_get dict "args" VNil)) ->
        variant_to_term can_build stringify (VDict dict) = None).
Proof.
  intros Hx. split.
  - intros arr Hin.
    destruct (variant_to_term can_build stringify (VArray arr)) as [t|] eqn:E;
      [|reflexivity].
    apply variant_to_term_inv in E. destruct E as (ts & Hf & _).
    destruct (Forall2_exists_l _ _ _ _ Hf Hin) as (y & Hy). congruence.
  - intros dict Hb Hin.
    destruct (variant_to_term can_build stringify (VDict dict)) as [t|] eqn:E;
      [|reflexivity].
    apply variant_to_term_inv in E. rewrite Hb in E.
    destruct E as (ts & Hf & _).
    destruct (Forall2_exists_l _ _ _ _ Hf Hin) as (y & Hy). congruence.
Qed.

(** An engine that cannot build floats. *)
Lemma variant_to_term_short_circuit_witness :
  variant_to_term
    (fun t => match t with Float _ => false | _ => true end)
    Mini.print_variant
    (VArray [VInt 1; VArray [VFloat PrimFloat.zero]; VString "a"])
  = None.
Proof.
  apply (variant_to_term_short_circuit
           (fun t => match t with Float _ => false | _ => true end)
           Mini.print_variant (VArray [VFloat PrimFloat.zero])).
  - apply (variant_to_term_short_circuit
             (fun t => match t with Float _ => false | _ => true end)
             Mini.print_variant (VFloat PrimFloat.zero) eq_refl).
    simpl. auto.
  - simpl. auto.
Defined.

Lemma plain_list_term tl : plain_list tl = true -> plain_term tl = true.
Proof.
  destruct tl; simpl; auto; discriminate.
Qed.

Lemma put_slots_map can_build convert (ts : list term) :
  (forall t, can_build t = true) ->
  Forall (fun t => convert (term_to_variant t) = Some t) ts ->
  put_slots can_build convert (map term_to_variant ts) = Some ts.
Proof.
  intros Hcb. induction 1 as [|t ts Ht _ IH]; simpl; [reflexivity|].
  rewrite Ht, IH. unfold PL_put_term. now rewrite put_total.
Qed.

(** The round trip from the engine's side: a plain term, that is an atom
    of ASCII text, an integer of 64 bits, a float, a proper list of plain
    terms, or a compound of plain terms with an ASCII name and at least
    one argument (the functor [[|]] of arity 2 apart), is read by
    [term_to_variant] as a value from which [variant_to_term] builds the
    same term again. *)
Theorem plain_term_round_trip can_build stringify t :
  (forall t, can_build t = true) ->
  plain_term t = true ->
  variant_to_term can_build stringify (term_to_variant t) = Some t.
Proof.
  intros Hcb.
  enough (H : (plain_term t = true ->
               variant_to_term can_build stringify (term_to_variant t)
               = Some t)
              /\ (plain_list t = true ->
                  cons_backwards can_build
                    (variant_to_term can_build stringify) (walk t)
                  = Some t)) by apply H.
  induction t as [id | s | i | d | s | | h tl [IHh _] [_ IHtl] | name args IH | k]
    using term_nested_ind;
    (split; [|try discriminate]); cbn [plain_term plain_list];
    try discriminate.
  - intros Hs. cbn [term_to_variant PL_get_atom_chars variant_to_term].
    rewrite (from_chars_ascii s Hs), (to_chars_ascii s Hs).
    unfold PL_put_atom_chars. now rewrite put_total.
  - intros Hi. cbn. rewrite Hi. cbn. unfold PL_put_int64.
    now rewrite put_total.
  - intros _. cbn. unfold PL_put_float. now rewrite put_total.
  - intros _. cbn. unfold PL_put_nil. now rewrite put_total.
  - intros _. cbn. unfold PL_put_nil. now rewrite put_total.
  - intros H. apply andb_prop in H. destruct H as [Hh Htl].
    cbn [term_to_variant variant_to_term cons_backwards].
    rewrite (IHtl Htl), (IHh Hh). unfold PL_cons_list, PL_put_term.
    now rewrite !put_total.
  - intros H. apply andb_prop in H. destruct H as [Hh Htl].
    cbn [walk cons_backwards].
    rewrite (IHtl Htl), (IHh Hh). unfold PL_cons_list.
    now rewrite put_total.
  - intros H. apply andb_prop in H. destruct H as [H Hargs].
    apply andb_prop in H. destruct H as [H Hpair].
    apply andb_prop in H. destruct H as [Hname Hne].
    apply negb_true_iff in Hne, Hpair. cbn [term_to_variant].
    rewrite Hne. cbn [andb]. rewrite (from_chars_ascii name Hname).
    assert (Hb : (dict_has [("functor", VString name);
                            ("args", VArray (map term_to_variant args))]
                           "functor"
                  && dict_has [("functor", VString name);
                               ("args", VArray (map term_to_variant args))]
                              "args")%bool = true) by reflexivity.
    rewrite (variant_to_term_dictionary _ _ _ Hb).
    cbn [dict_get String.eqb Ascii.eqb Bool.eqb as_Array as_String].
    rewrite (to_chars_ascii name Hname).
    rewrite put_slots_map; auto.
    + unfold PL_cons_functor_v.
      rewrite (cons_functor_compound name args Hne Hpair).
      now rewrite put_total.
    + rewrite forallb_forall in Hargs. rewrite Forall_forall in IH |- *.
      intros x Hx. apply (IH x Hx). now apply Hargs.
Qed.

Lemma plain_term_round_trip_witness :
  variant_to_term (fun _ => true) Mini.print_variant
    (term_to_variant
       (Compound "foo" [Int 1; Atom "bar"; Cons (Int 1) (Cons (Int 2) Nil)]))
  = Some (Compound "foo" [Int 1; Atom "bar"; Cons (Int 1) (Cons (Int 2) Nil)]).
Proof.
  apply (plain_term_round_trip (fun _ => true) Mini.print_variant
           (Compound "foo" [Int 1; Atom "bar"; Cons (Int 1) (Cons (Int 2) Nil)])
           (fun _ => eq_refl) eq_refl).
Defined.

Lemma Forall2_read_back arr ts (convert : Variant -> option term) :
  Forall2 (fun x t => convert x = Some t) arr ts ->
  Forall (fun x => forall t, convert x = Some t -> term_to_variant t = x) arr ->
  map term_to_variant ts = arr.
Proof.
  induction 1 as [|x t arr ts Hx _ IH]; intros Hall; [reflexivity|].
  inversion Hall; subst. simpl. rewrite (H1 t Hx). f_equal. now apply IH.
Qed.

Lemma restorable_read_back can_build stringify v :
  restorable v = true ->
  forall t, variant_to_term can_build stringify v = Some t ->
            term_to_variant t = v.
Proof.
  induction v as [| b | i | d | s | arr IH | dict IH | k]
    using Variant_deep_ind; cbn [restorable]; intros Hr t Ht;
    try discriminate.
  - cbn in Ht. apply put_some in Ht. subst t. cbn. now rewrite Hr.
  - cbn in Ht. apply put_some in Ht. now subst t.
  - cbn [variant_to_term] in Ht. apply put_some in Ht. subst t.
    cbn [term_to_variant PL_get_atom_chars].
    now rewrite (to_chars_ascii s Hr), (from_chars_ascii s Hr).
  - apply variant_to_term_inv in Ht. destruct Ht as (ts & Hf & ->).
    assert (Hm : map term_to_variant ts = arr).
    { eapply Forall2_read_back; [exact Hf|].
      rewrite forallb_forall in Hr. rewrite Forall_forall in IH |- *.
      intros x Hx. apply (IH x Hx). now apply Hr. }
    rewrite <- Hm. destruct ts as [|t0 ts]; [reflexivity|].
    cbn [fold_right term_to_variant map]. now rewrite walk_list.
  - destruct dict as [|[k1 [| ? | ? | ? | f | ? | ? | ?]]
                         [|[k2 [| ? | ? | ? | ? | args | ? | ?]] [|]]];
      try discriminate.
    apply andb_prop in Hr. destruct Hr as [Hr Hargs].
    apply andb_prop in Hr. destruct Hr as [Hr Hpair].
    apply andb_prop in Hr. destruct Hr as [Hr Hne].
    apply andb_prop in Hr. destruct Hr as [Hr Hf].
    apply andb_prop in Hr. destruct Hr as [Hk1 Hk2].
    apply String.eqb_eq in Hk1, Hk2. subst k1 k2.
    apply negb_true_iff in Hne, Hpair.
    apply variant_to_term_inv in Ht. cbn in Ht.
    destruct Ht as (ts & Hts & ->).
    assert (Hm : map term_to_variant ts = args).
    { eapply Forall2_read_back; [exact Hts|].
      inversion IH as [|? ? _ IH2]; subst.
      inversion IH2 as [|? ? [_ Hel] _]; subst. cbn in Hel.
      rewrite forallb_forall in Hargs. rewrite Forall_forall in Hel |- *.
      intros x Hx. apply (Hel x Hx). now apply Hargs. }
    assert (Hlen : length ts = length args)
      by (rewrite <- Hm; now rewrite length_map).
    rewrite <- Hlen in Hne, Hpair.
    change (c_str (utf8 f)) with (to_chars f).
    rewrite (to_chars_ascii f Hf) in *.
    rewrite (cons_functor_compound f ts Hne Hpair).
    cbn [term_to_variant]. rewrite Hne. cbn [andb].
    now rewrite (from_chars_ascii f Hf), Hm.
Qed.

(** The round trip with compounds counted in: for a value made of Int64,
    Float64, String of ASCII text, sequences, and Mappings with the two
    entries "functor" (a String of ASCII text) and "args" (a sequence that
    is not empty) in this order, the functor [[|]] with two arguments
    apart, [term_to_variant] reads back from the term that
    [variant_to_term] builds the value itself; the term is built whenever
    the engine can build terms. *)
Theorem restorable_round_trip can_build stringify v :
  restorable v = true ->
  (forall t, variant_to_term can_build stringify v = Some t ->
             term_to_variant t = v)
  /\ ((forall t, can_build t = true) ->
      option_map term_to_variant (variant_to_term can_build stringify v)
      = Some v).
Proof.
  intros Hr. split; [now apply restorable_read_back|].
  intros Hcb.
  destruct (variant_to_term_table can_build stringify Hcb v)
    as [(t & Ht & _) _].
  rewrite Ht. cbn. f_equal. eapply restorable_read_back; eauto.
Qed.

Lemma restorable_round_trip_witness :
  option_map term_to_variant
    (variant_to_term (fun _ => true) Mini.print_variant
       (VDict [("functor", VString "point");
               ("args", VArray [VInt 1;
                                VDict [("functor", VString "[]");
                                       ("args", VArray [VString "x"])]])]))
  = Some (VDict [("functor", VString "point");
                 ("args", VArray [VInt 1;
                                  VDict [("functor", VString "[]");
                                         ("args", VArray [VString "x"])]])]).
Proof.
  apply (restorable_round_trip (fun _ => true) Mini.print_variant
           (VDict [("functor", VString "point");
                   ("args", VArray [VInt 1;
                                    VDict [("functor", VString "[]");
                                           ("args", VArray [VString "x"])]])])
           eq_refl).
  intros t. reflexivity.
Defined.

(** Whatever the term, [term_to_variant] returns Null, an Int64 within
    range, a Float64, a String, a sequence of such values, or the Mapping of
    a compound with exactly the entries "functor" and "args"; it never
    returns a Bool, and an integer beyond 64 bits is read as Null. *)
Theorem term_to_variant_image t :
  converter_image (term_to_variant t) = true
  /\ (forall b, term_to_variant t <> VBool b)
  /\ (forall i, t = Int i -> in_int64 i = false -> term_to_variant t = VNil).
Proof.
  split; [|split].
  - enough (H : converter_image (term_to_variant t) = true
                /\ forallb converter_image (walk t) = true) by apply H.
    induction t as [id | s | i | d | s | | h tl [IHh _] [_ IHtl] | name args IH | k]
      using term_nested_ind; try (split; reflexivity).
    + cbn. destruct (in_int64 i) eqn:E; cbn; now rewrite ?E.
    + cbn [term_to_variant walk converter_image forallb].
      now rewrite IHh, IHtl.
    + split; [|reflexivity]. cbn [term_to_variant].
      destruct (_ && _)%bool; [reflexivity|].
      cbn. rewrite forallb_forall. intros v Hv.
      apply in_map_iff in Hv. destruct Hv as (x & <- & Hx).
      rewrite Forall_forall in IH. apply (IH x Hx).
  - intros b. destruct t; cbn; try discriminate.
    + destruct (in_int64 i); discriminate.
    + destruct (_ && _)%bool; discriminate.
  - intros i -> Hi. cbn. now rewrite Hi.
Qed.

Lemma walk_improper ts tl :
  PL_get_list tl = None ->
  walk (fold_right Cons tl ts) = map term_to_variant ts.
Proof.
  intros Htl. induction ts as [|t ts IH]; simpl.
  - destruct tl; try reflexivity. discriminate.
  - now rewrite IH.
Qed.

(** A list whose tail is not the empty list, as [[a, b | T]] with [T]
    unbound, is read as the sequence of its elements: the loop stops at the
    first tail that is not a list pair and drops it. *)
Theorem term_to_variant_partial_list t ts tl :
  PL_get_list tl = None ->
  term_to_variant (fold_right Cons tl (t :: ts))
  = VArray (map term_to_variant (t :: ts)).
Proof.
  intros Htl. cbn [fold_right term_to_variant map].
  now rewrite walk_improper.
Qed.

Lemma term_to_variant_partial_list_witness :
  term_to_variant (Cons (Atom "a") (Cons (Atom "b") (Var 0)))
  = VArray [VString "a"; VString "b"].
Proof.
  apply (term_to_variant_partial_list (Atom "a") [Atom "b"] (Var 0) eq_refl).
Defined.

Lemma term_to_variant_image_witness :
  term_to_variant (Int (2 ^ 63)) = VNil.
Proof.
  apply (proj2 (proj2 (term_to_variant_image (Int (2 ^ 63))))
               (2 ^ 63) eq_refl eq_refl).
Defined.

(** ** The text of a goal *)


Lemma concat_separator sep x xs :
  String.concat sep (x :: xs)
  = (x ++ String.concat EmptyString (map (fun y => sep ++ y) xs))%string.
Proof.
  revert x. induction xs as [|y ys IH]; intros x.
  - simpl. now rewrite append_nil_r.
  - change (String.concat sep (x :: y :: ys))
      with (x ++ sep ++ String.concat sep (y :: ys))%string.
    rewrite (IH y).
    change (map (fun y0 => sep ++ y0) (y :: ys))%string
      with ((sep ++ y) :: map (fun y0 => sep ++ y0) ys)%string.
    destruct (map (fun y0 => (sep ++ y0)%string) ys) as [|z zs] eqn:E.
    + simpl. now rewrite append_nil_r.
    + change (String.concat EmptyString ((sep ++ y) :: z :: zs))%string
        with ((sep ++ y) ++ EmptyString
              ++ String.concat EmptyString (z :: zs))%string.
      cbn [append]. now rewrite append_assoc.
Qed.

Lemma concat_cons_separated x (ys : list string) :
  String.concat EmptyString
    ((", " ++ x)%string :: map (fun y => ", " ++ y)%string ys)
  = (", " ++ x
       ++ String.concat EmptyString (map (fun y => ", " ++ y) ys))%string.
Proof.
  destruct (map (fun y => (", " ++ y)%string) ys) as [|z zs] eqn:E.
  - cbn [String.concat]. now rewrite append_nil_r.
  - change (String.concat EmptyString ((", " ++ x) :: z :: zs))%string
      with ((", " ++ x) ++ EmptyString
            ++ String.concat EmptyString (z :: zs))%string.
    cbn [append]. reflexivity.
Qed.

Lemma build_args_rest (api : Foreign) i args q :
  build_args api (S i) args q
  = (q ++ String.concat EmptyString
            (map (fun y => ", " ++ y) (map (to_String api) args)))%string.
Proof.
  revert i q. induction args as [|a rest IH]; intros i q.
  - simpl. now rewrite append_nil_r.
  - cbn [map]. rewrite concat_cons_separated.
    cbn [build_args]. change (0 <? S i)%nat with true. cbv iota.
    destruct a; try (destruct (_ || _)%bool); rewrite IH;
      unfold to_String, as_String; now rewrite !append_assoc.
Qed.

(** The goal [build_query] builds: without arguments the predicate less
    its trailing period; with arguments the predicate, an opening
    parenthesis, the arguments separated by a comma and a space, and a
    closing parenthesis.  A String argument is written as it is, without
    quotes or escapes, whether or not it looks like a variable; any other
    value is written as Godot prints it. *)
Theorem build_query_text (api : Foreign) p args :
  build_query api p args
  = match args with
    | [] => remove_trailing_period p
    | _ :: _ =>
        (remove_trailing_period p ++ "("
           ++ String.concat ", " (map (to_String api) args) ++ ")")%string
    end.
Proof.
  unfold build_query. destruct args as [|a rest]; [reflexivity|].
  cbn [map]. rewrite concat_separator.
  cbn [build_args]. change (0 <? 0)%nat with false. cbv iota.
  destruct a; try (destruct (_ || _)%bool); rewrite build_args_rest;
    unfold to_String, as_String; now rewrite !append_assoc.
Qed.

(** ** What a result tells *)

(** A true result means a solution: [query], [add_fact] and
    [retract_fact] return true exactly when the object is initialized, the
    text is not empty, the engine parses it, and the step of the query,
    on [call/1], [assert/1] or [retract/1], returns neither failure nor an
    exception. *)
Theorem true_means_solution (api : Foreign) (w : World api) :
  (forall p args,
      fst (query api p args w) = true
      <-> m_initialized w = true
          /\ is_empty (build_query api p args) = false
          /\ exists t,
              PL_chars_to_term api (engine w) (build_query api p args) = Some t
              /\ status (fst (PL_next_solution api (engine w) "call" [t])) <> 0
              /\ status (fst (PL_next_solution api (engine w) "call" [t]))
                 <> PL_S_EXCEPTION)
  /\ (forall f,
        fst (add_fact api f w) = true
        <-> m_initialized w = true
            /\ is_empty f = false
            /\ exists t,
                PL_chars_to_term api (engine w) (remove_trailing_period f)
                = Some t
                /\ status (fst (PL_next_solution api (engine w) "assert" [t]))
                   <> 0
                /\ status (fst (PL_next_solution api (engine w) "assert" [t]))
                   <> PL_S_EXCEPTION)
  /\ (forall f,
        fst (retract_fact api f w) = true
        <-> m_initialized w = true
            /\ is_empty f = false
            /\ exists t,
                PL_chars_to_term api (engine w) (remove_trailing_period f)
                = Some t
                /\ status (fst (PL_next_solution api (engine w) "retract" [t]))
                   <> 0
                /\ status (fst (PL_next_solution api (engine w) "retract" [t]))
                   <> PL_S_EXCEPTION).
Proof.
  split; [|split; intros f; apply mutate_fact_true_iff].
  intros p args. apply query_true_iff.
Qed.

Lemma true_means_solution_witness :
  fst (add_fact Mini.api "likes(john,pizza)." Mini.family) = true.
Proof.
  apply (proj1 (proj2 (true_means_solution Mini.api Mini.family))).
  repeat split. exists (Compound "likes" [Atom "john"; Atom "pizza"]).
  repeat split; discriminate.
Defined.

(** [query] and [query_one] agree: on one object and one goal both make
    the same calls to the engine and leave it in the same state, and
    [query_one] returns Null whenever [query] returns false. *)
Theorem query_one_agrees_with_query (api : Foreign) p args (w : World api) :
  calls (snd (query_one api p args w)) = calls (snd (query api p args w))
  /\ engine (snd (query_one api p args w)) = engine (snd (query api p args w))
  /\ (fst (query api p args w) = false ->
      fst (query_one api p args w) = VNil).
Proof.
  unfold_ops. branches; cbn [fst snd calls engine log set_last_error
                               set_engine print];
    repeat split; intros; try reflexivity; try discriminate; congruence.
Qed.

Lemma query_one_agrees_with_query_witness :
  fst (query_one Mini.api "parent" [VString "ann"; VString "tom"] Mini.family)
  = VNil.
Proof.
  apply (query_one_agrees_with_query Mini.api "parent"
           [VString "ann"; VString "tom"] Mini.family).
  reflexivity.
Defined.

(** ** Exceptions and parse failures *)

(** An exception with a text: when the step returns [PL_S_EXCEPTION] and
    the exception term can be written, [query] returns false, the last error
    is the context ["Query error: "] followed by the text, and the text is
    printed exactly when the option "on error" is "print" or "halt"; with
    any other option, "status" included, it is stored without a print.  The
    query is closed and the engine is the one the step left. *)
Theorem exception_is_recorded (api : Foreign) p args (w : World api)
        t sol e ex text :
  m_initialized w = true ->
  is_empty (build_query api p args) = false ->
  PL_chars_to_term api (engine w) (build_query api p args) = Some t ->
  PL_next_solution api (engine w) "call" [t] = (sol, e) ->
  status sol = PL_S_EXCEPTION ->
  pending sol = Some ex ->
  PL_get_chars api ex = Some text ->
  fst (query api p args w) = false
  /\ get_last_error api (snd (query api p args w))
     = ("Query error: " ++ text)%string
  /\ console (snd (query api p args w))
     = (console w
          ++ (if (String.eqb (m_on_error w) "print"
                  || String.eqb (m_on_error w) "halt")%bool
              then [("Prologot: Query error: " ++ text)%string]
              else []))%list
  /\ engine (snd (query api p args w)) = e
  /\ m_on_error (snd (query api p args w)) = m_on_error w.
Proof.
  intros Hi Hne Hp Hs Hx Hex Ht.
  unfold query, chars_to_term, open_next, handle_prolog_exception,
    push_error, PL_close_query, get_last_error.
  rewrite Hi, Hne, Hp. cbn [negb engine log]. rewrite Hs, Hx, Hex, Ht.
  cbn [Z.eqb Pos.eqb PL_S_EXCEPTION String.eqb Ascii.eqb Bool.eqb
       m_on_error m_on_warning set_last_error log set_engine].
  destruct (String.eqb (m_on_error w) "print");
    [|destruct (String.eqb (m_on_error w) "halt")];
    cbn [fst snd m_last_error console engine m_on_error print log
         set_last_error set_engine orb];
    rewrite ?app_nil_r; repeat split.
Qed.

Lemma exception_is_recorded_witness :
  get_last_error Mini.api
    (snd (query Mini.api "nonexistent_predicate_xyz(1)" [] Mini.family))
  = "Query error: existence_error".
Proof.
  apply (exception_is_recorded Mini.api "nonexistent_predicate_xyz(1)" []
           Mini.family (Compound "nonexistent_predicate_xyz" [Int 1])
           (Mini.raise [Compound "nonexistent_predicate_xyz" [Int 1]]
              (Compound "existence_error"
                 [Compound "nonexistent_predicate_xyz" [Int 1]]))
           (engine Mini.family)
           (Compound "existence_error"
              [Compound "nonexistent_predicate_xyz" [Int 1]])
           "existence_error"
           eq_refl eq_refl eq_refl eq_refl eq_refl eq_refl eq_refl).
Defined.

(** An exception without a text: when the step returns [PL_S_EXCEPTION]
    and the engine hands out no exception term, or one that cannot be
    written, [query], [query_one] and [query_all] return their failure value
    and neither the last error nor the console changes: the failure cannot be
    told from "no solution". *)
Theorem exception_without_text_is_lost (api : Foreign) p args (w : World api)
        t :
  m_initialized w = true ->
  is_empty (build_query api p args) = false ->
  (pending (fst (PL_next_solution api (engine w) "call" [t])) = None
   \/ exists ex,
       pending (fst (PL_next_solution api (engine w) "call" [t])) = Some ex
       /\ PL_get_chars api ex = None) ->
  status (fst (PL_next_solution api (engine w) "call" [t])) = PL_S_EXCEPTION ->
  (PL_chars_to_term api (engine w) (build_query api p args) = Some t ->
   fst (query api p args w) = false
   /\ get_last_error api (snd (query api p args w)) = get_last_error api w
   /\ console (snd (query api p args w)) = console w
   /\ fst (query_one api p args w) = VNil
   /\ get_last_error api (snd (query_one api p args w)) = get_last_error api w
   /\ console (snd (query_one api p args w)) = console w)
  /\ (PL_chars_to_term api (engine w)
        ("findall(" ++ build_query api p args ++ ", "
           ++ build_query api p args ++ ", PrologotResults__)") = Some t ->
      fst (query_all api p args w) = []
      /\ get_last_error api (snd (query_all api p args w))
         = get_last_error api w
      /\ console (snd (query_all api p args w)) = console w).
Proof.
  intros Hi Hne Hex Hx.
  destruct (PL_next_solution api (engine w) "call" [t]) as [sol e] eqn:Hs.
  cbn [fst] in Hex, Hx.
  assert (Hh : forall context w',
             handle_prolog_exception api (pending sol) context w' = (false, w')).
  { intros context w'. unfold handle_prolog_exception.
    destruct Hex as [->|(ex & -> & ->)]; reflexivity. }
  split; intros Hp.
  - unfold query, query_one, chars_to_term, open_next, PL_close_query,
      get_last_error.
    rewrite Hi, Hne, Hp. cbn [negb engine log]. rewrite Hs, Hx, !Hh.
    repeat split.
  - unfold query_all, chars_to_term, open_next, PL_close_query,
      get_last_error.
    rewrite Hi, Hne, Hp. cbn [negb engine log]. rewrite Hs, Hx, !Hh.
    repeat split.
Qed.

(** A text the engine does not parse: [query], [query_one], [query_all],
    [add_fact] and [retract_fact] return their failure value, record
    "Failed to parse" with the text less its trailing period ([query_all]
    names the goal, not the [findall] text it parsed), and have made one
    call to the engine, the parse: no query is opened and the engine is as
    it was. *)
Theorem parse_failure_is_reported (api : Foreign) (w : World api) :
  m_initialized w = true ->
  (forall p args,
      is_empty (build_query api p args) = false ->
      PL_chars_to_term api (engine w) (build_query api p args) = None ->
      query api p args w
      = (false,
         set_last_error api
           ("Failed to parse query: " ++ build_query api p args)
           (log api (CCharsToTerm (build_query api p args)) w))
      /\ query_one api p args w
         = (VNil,
            set_last_error api
              ("Failed to parse query: " ++ build_query api p args)
              (log api (CCharsToTerm (build_query api p args)) w)))
  /\ (forall p args,
        is_empty (build_query api p args) = false ->
        PL_chars_to_term api (engine w)
          ("findall(" ++ build_query api p args ++ ", "
             ++ build_query api p args ++ ", PrologotResults__)") = None ->
        query_all api p args w
        = ([],
           set_last_error api
             ("Failed to parse query: " ++ build_query api p args)
             (log api
                (CCharsToTerm
                   ("findall(" ++ build_query api p args ++ ", "
                      ++ build_query api p args ++ ", PrologotResults__)"))
                w)))
  /\ (forall f,
        is_empty f = false ->
        PL_chars_to_term api (engine w) (remove_trailing_period f) = None ->
        add_fact api f w
        = (false,
           set_last_error api
             ("Failed to parse fact: " ++ remove_trailing_period f)
             (log api (CCharsToTerm (remove_trailing_period f)) w))
        /\ retract_fact api f w
           = (false,
              set_last_error api
                ("Failed to parse fact: " ++ remove_trailing_period f)
                (log api (CCharsToTerm (remove_trailing_period f)) w))).
Proof.
  intros Hi. split; [|split].
  - intros p args Hne Hp. unfold query, query_one, chars_to_term.
    rewrite Hi, Hne, Hp. split; reflexivity.
  - intros p args Hne Hp. unfold query_all, chars_to_term.
    rewrite Hi, Hne, Hp. reflexivity.
  - intros f Hne Hp. unfold add_fact, retract_fact, mutate_fact, chars_to_term.
    rewrite Hi, Hne, Hp. split; reflexivity.
Qed.

Lemma parse_failure_is_reported_witness :
  query_all Mini.api "parent(" [] Mini.family
  = ([],
     set_last_error Mini.api "Failed to parse query: parent("
       (log Mini.api
          (CCharsToTerm "findall(parent(, parent(, PrologotResults__)")
          Mini.family)).
Proof.
  apply (proj1 (proj2 (parse_failure_is_reported Mini.api Mini.family eq_refl))
               "parent(" [] eq_refl eq_refl).
Defined.

Lemma exception_without_text_is_lost_witness :
  fst (query Mini.mute "nonexistent_predicate_xyz(1)" [] Mini.mute_family)
  = false
  /\ get_last_error Mini.mute
       (snd (query Mini.mute "nonexistent_predicate_xyz(1)" []
               Mini.mute_family))
     = EmptyString.
Proof.
  assert (H := exception_without_text_is_lost Mini.mute
                 "nonexistent_predicate_xyz(1)" [] Mini.mute_family
                 (Compound "nonexistent_predicate_xyz" [Int 1])
                 eq_refl eq_refl
                 (or_intror
                    (ex_intro _
                       (Compound "existence_error"
                          [Compound "nonexistent_predicate_xyz" [Int 1]])
                       (conj eq_refl eq_refl)))
                 eq_refl).
  destruct H as [H _]. destruct (H eq_refl) as (H1 & H2 & _).
  split; [exact H1 | exact H2].
Defined.

(** ** Solutions *)

Lemma each_solution_list f ts :
  each_solution f (fold_right Cons Nil ts) = map f ts.
Proof.
  induction ts as [|t ts IH]; simpl; [reflexivity|]. now rewrite IH.
Qed.

(** [query_all] returns one value per solution, in the order of the list
    the engine has bound to the third argument of [findall/3]: the Mapping
    of the named variables of each solution when [extract_vars] holds, its
    conversion otherwise. *)
Theorem query_all_one_value_per_solution (api : Foreign) p args
        (w : World api) t sol e solutions :
  m_initialized w = true ->
  is_empty (build_query api p args) = false ->
  PL_chars_to_term api (engine w)
    ("findall(" ++ build_query api p args ++ ", "
       ++ build_query api p args ++ ", PrologotResults__)") = Some t ->
  PL_next_solution api (engine w) "call" [t] = (sol, e) ->
  status sol <> PL_S_EXCEPTION ->
  status sol <> 0 ->
  PL_get_arg 3 (nth 0 (bound sol) t) = Some (fold_right Cons Nil solutions) ->
  fst (query_all api p args w)
  = map (fun head =>
           if extract_vars args then VDict (extract_variables api head args)
           else term_to_variant head) solutions
  /\ length (fst (query_all api p args w)) = length solutions.
Proof.
  intros Hi Hne Hp Hs Hx H0 Hr. apply Z.eqb_neq in Hx, H0.
  assert (H : fst (query_all api p args w)
              = map (fun head =>
                       if extract_vars args
                       then VDict (extract_variables api head args)
                       else term_to_variant head) solutions).
  { unfold query_all, chars_to_term. rewrite Hi. cbn [negb].
    rewrite Hne, Hp. unfold open_next. cbn [engine log].
    rewrite Hs, Hx, H0. cbn [negb fst]. rewrite Hr.
    apply each_solution_list. }
  split; [exact H|]. rewrite H. apply length_map.
Qed.

Lemma query_all_one_value_per_solution_witness :
  fst (query_all Mini.api "parent(X, Y)" [] Mini.family)
  = [VDict [("functor", VString "parent");
            ("args", VArray [VString "tom"; VString "bob"])];
     VDict [("functor", VString "parent");
            ("args", VArray [VString "bob"; VString "ann"])]].
Proof.
  apply (query_all_one_value_per_solution Mini.api "parent(X, Y)" []
           Mini.family
           (Compound "findall"
              [Mini.parent (Var 0) (Var 1); Mini.parent (Var 0) (Var 1); Var 2])
           (Mini.yes
              [Compound "findall"
                 [Mini.parent (Var 0) (Var 1); Mini.parent (Var 0) (Var 1);
                  Mini.list_term [Mini.parent (Atom "tom") (Atom "bob");
                                  Mini.parent (Atom "bob") (Atom "ann")]]])
           (engine Mini.family)
           [Mini.parent (Atom "tom") (Atom "bob");
            Mini.parent (Atom "bob") (Atom "ann")]
           eq_refl eq_refl eq_refl eq_refl);
    [discriminate | discriminate | reflexivity].
Defined.

Lemma dict_set_fresh d key value :
  ~ In key (dict_keys d) -> dict_set d key value = (d ++ [(key, value)])%list.
Proof.
  induction d as [|[k v] rest IH]; simpl; intros Hn; [reflexivity|].
  destruct (String.eqb_spec k key) as [->|Hne]; [now elim Hn; left|].
  rewrite IH; auto.
Qed.

Lemma extract_loop_distinct (api : Foreign) name before targs names result :
  NoDup names ->
  (forall k, In k names -> ~ In k (dict_keys result)) ->
  extract_loop api (length before) (length (before ++ targs))
    (Compound name (before ++ targs)) (map VString names) result
  = (result ++ combine names (map term_to_variant targs))%list.
Proof.
  revert before targs result.
  induction names as [|n names IH]; intros before targs result Hnd Hfresh.
  - simpl. now rewrite app_nil_r.
  - cbn [map extract_loop]. destruct targs as [|a targs].
    + rewrite app_nil_r, Nat.ltb_irrefl. simpl. now rewrite app_nil_r.
    + replace (length before <? length (before ++ a :: targs))%nat with true
        by (symmetry; apply Nat.ltb_lt; rewrite length_app; simpl; lia).
      replace (PL_get_arg (length before + 1)
                          (Compound name (before ++ a :: targs)))
        with (Some a).
      2:{ rewrite Nat.add_1_r. cbn [PL_get_arg].
          now rewrite nth_error_app2, Nat.sub_diag by lia. }
      rewrite dict_set_fresh by (apply Hfresh; now left).
      inversion Hnd as [|? ? Hnotin Hnd']; subst.
      replace (before ++ a :: targs)%list with ((before ++ [a]) ++ targs)%list
        by now rewrite <- app_assoc.
      replace (S (length before)) with (length (before ++ [a])%list)
        by (rewrite length_app; simpl; lia).
      cbn [to_String as_String].
      rewrite IH; auto.
      * now rewrite <- app_assoc.
      * intros k Hk. unfold dict_keys. rewrite map_app, in_app_iff.
        intros [Hin|[<-|[]]]; [|contradiction].
        apply (Hfresh k); [now right | exact Hin].
Qed.

(** The Mapping of named variables: for a compound solution and names
    that are pairwise distinct, the i-th name is bound to the conversion of
    the i-th argument, in this order, for as many names as there are
    arguments and the other way round; for a term that has no name and
    arity, a number, an unbound variable or the empty list, the Mapping is
    empty. *)
Theorem extract_variables_by_position (api : Foreign) :
  (forall name targs names,
      NoDup names ->
      extract_variables api (Compound name targs) (map VString names)
      = combine names (map term_to_variant targs))
  /\ (forall t names,
        PL_get_name_arity t = None -> extract_variables api t names = []).
Proof.
  split.
  - intros name targs names Hnd. unfold extract_variables.
    cbn [PL_get_name_arity].
    apply (extract_loop_distinct api name [] targs names [] Hnd).
    intros k _ [].
  - intros t names H. unfold extract_variables. now rewrite H.
Qed.

Lemma extract_variables_by_position_witness :
  extract_variables Mini.api
    (Compound "edge" [Atom "a"; Atom "b"; Int 3])
    (map VString ["From"; "To"])
  = [("From", VString "a"); ("To", VString "b")].
Proof.
  apply (proj1 (extract_variables_by_position Mini.api) "edge"
               [Atom "a"; Atom "b"; Int 3] ["From"; "To"]).
  repeat constructor; simpl; intuition discriminate.
Defined.

(** ** Calls with converted arguments *)

Lemma variant_to_term_can_build can_build stringify v t :
  variant_to_term can_build stringify v = Some t -> can_build t = true.
Proof.
  assert (Hput : forall a b, put can_build a = Some b -> can_build b = true).
  { unfold put. intros a b. destruct (can_build a) eqn:E; [|discriminate].
    now intros [= <-]. }
  destruct v as [| b | i | d | s | arr | dict | k]; cbn [variant_to_term];
    try apply Hput.
  - destruct arr; [apply Hput|].
    destruct (cons_backwards _ _ _); [apply Hput | discriminate].
  - destruct (_ && _)%bool; [|apply Hput].
    destruct (dict_with _ _ _ _); [apply Hput | discriminate].
Qed.

Lemma put_args_filled (api : Foreign) k args ts :
  Forall2 (fun x t => fill_slot api (to_term api x) = Some t) args ts ->
  put_args api k args = inl ts.
Proof.
  intros H. revert k.
  induction H as [|x t args ts Hx _ IH]; intros k; cbn [put_args];
    [reflexivity|].
  now rewrite Hx, IH.
Qed.

Lemma put_args_unfilled (api : Foreign) k before ts x after :
  Forall2 (fun y t => fill_slot api (to_term api y) = Some t) before ts ->
  fill_slot api (to_term api x) = None ->
  put_args api k (before ++ x :: after)%list
  = inr (k + Z.of_nat (length before)).
Proof.
  intros H Hx. revert k.
  induction H as [|y t before ts Hy _ IH]; intros k; cbn [put_args app].
  - rewrite Hx. f_equal. simpl. lia.
  - rewrite Hy, IH. f_equal. simpl length. lia.
Qed.

Lemma get_arg_cons_functor name ts x :
  PL_get_arg (S (length ts)) (cons_functor name (ts ++ [x])%list) = Some x.
Proof.
  assert (H : nth_error (ts ++ [x])%list (length ts) = Some x)
    by now rewrite nth_error_app2, Nat.sub_diag by lia.
  destruct ts as [|a [|b [|c rest]]]; try reflexivity.
  - cbn [app cons_functor]. destruct (String.eqb name LIST_FUNCTOR); reflexivity.
  - exact H.
Qed.

(** A slot that is not filled: [call_predicate] and [call_function] leave
    at the first argument for which [PL_put_term] answers [FALSE]; the
    error names its position, counted from 0, and nothing is asked of the
    engine.  The conversion itself is not tested: an argument whose
    conversion failed is reported only when [PL_put_term] refuses the
    invalid term. *)
Theorem call_reports_first_bad_argument (api : Foreign) p before ts x after
        (w : World api) :
  m_initialized w = true ->
  is_empty p = false ->
  Forall2 (fun y t => fill_slot api (to_term api y) = Some t) before ts ->
  fill_slot api (to_term api x) = None ->
  call_predicate api p (before ++ x :: after)%list w
  = (false,
     set_last_error api
       ("Failed to convert argument "
          ++ num_int64 (Z.of_nat (length before))) w)
  /\ call_function api p (before ++ x :: after)%list w
     = (VNil,
        set_last_error api
          ("Failed to convert argument "
             ++ num_int64 (Z.of_nat (length before))) w).
Proof.
  intros Hi Hp Hb Hx.
  pose proof (put_args_unfilled api 0 before ts x after Hb Hx) as H.
  unfold call_predicate, call_function. now rewrite Hi, Hp, H.
Qed.

Lemma call_reports_first_bad_argument_witness :
  call_predicate Mini.floatless "member"
    ([VInt 3] ++ VArray [VFloat PrimFloat.zero] :: [])%list
    Mini.floatless_family
  = (false,
     set_last_error Mini.floatless "Failed to convert argument 1"
       Mini.floatless_family).
Proof.
  apply (call_reports_first_bad_argument Mini.floatless "member"
           [VInt 3] [Int 3] (VArray [VFloat PrimFloat.zero]) []
           Mini.floatless_family eq_refl eq_refl).
  - repeat constructor.
  - reflexivity.
Defined.

(** The goal of a call: with every slot filled, [call_predicate] steps
    [call/1] on the term the engine makes of the predicate name and the
    slots, which is the atom of the name when there is no argument, and
    [call_function] on the term with one more argument, unbound, whose
    binding in the solution it returns.  The name is never parsed: neither
    operation calls [PL_chars_to_term]. *)
Theorem call_builds_the_goal (api : Foreign) p args ts (w : World api) :
  m_initialized w = true ->
  is_empty p = false ->
  Forall2 (fun x t => fill_slot api (to_term api x) = Some t) args ts ->
  (can_build api (cons_functor (to_chars p) ts) = true ->
   calls (snd (call_predicate api p args w))
   = (calls w ++ [COpenQuery "call" [cons_functor (to_chars p) ts];
                  CNextSolution; CCloseQuery])%list
   /\ fst (call_predicate api p args w)
      = (negb (status (fst (PL_next_solution api (engine w) "call"
                              [cons_functor (to_chars p) ts])) =? 0)
         && negb (status (fst (PL_next_solution api (engine w) "call"
                                 [cons_functor (to_chars p) ts]))
                  =? PL_S_EXCEPTION))%bool)
  /\ (can_build api (cons_functor (to_chars p) (ts ++ [Var 0])) = true ->
      calls (snd (call_function api p args w))
      = (calls w
           ++ [COpenQuery "call" [cons_functor (to_chars p) (ts ++ [Var 0])];
               CNextSolution; CCloseQuery])%list
      /\ forall sol e result,
          PL_next_solution api (engine w) "call"
            [cons_functor (to_chars p) (ts ++ [Var 0])]
          = (sol, e) ->
          status sol <> PL_S_EXCEPTION -> status sol <> 0 ->
          bound sol = [cons_functor (to_chars p) (ts ++ [result])] ->
          fst (call_function api p args w) = term_to_variant result)
  /\ (args = [] -> cons_functor (to_chars p) ts = Atom (to_chars p)).
Proof.
  intros Hi Hp Hts.
  pose proof (put_args_filled api 0 args ts Hts) as H.
  split; [|split].
  - intros Hc.
    unfold call_predicate, PL_cons_functor_v, put, open_next, PL_close_query.
    rewrite Hi, Hp, H, Hc. cbn [negb engine log].
    destruct (PL_next_solution api (engine w) "call"
                [cons_functor (to_chars p) ts]) as [sol e].
    cbn [fst]. destruct (status sol =? PL_S_EXCEPTION) eqn:Ex.
    + destruct (handle_prolog_exception api (pending sol) _ _) as [h w'] eqn:Eh.
      assert (Hw : calls w'
                   = (calls w
                        ++ [COpenQuery "call" [cons_functor (to_chars p) ts];
                            CNextSolution])%list).
      { revert Eh. unfold handle_prolog_exception, push_error.
        branches; intros [= _ <-];
          cbn [calls log set_last_error set_engine print];
          now rewrite <- app_assoc. }
      cbn [fst snd calls log]. rewrite Hw, <- app_assoc.
      split; [reflexivity | now rewrite andb_false_r].
    + cbn [fst snd calls log set_engine]. rewrite <- !app_assoc.
      split; [reflexivity | now rewrite andb_true_r].
  - intros Hc.
    unfold call_function, PL_cons_functor_v, put, open_next, PL_close_query.
    rewrite Hi, Hp, H, Hc. cbn [negb engine log].
    split.
    + destruct (PL_next_solution api (engine w) "call"
                  [cons_functor (to_chars p) (ts ++ [Var 0])]) as [sol e].
      destruct (status sol =? PL_S_EXCEPTION) eqn:Ex.
      * destruct (handle_prolog_exception api (pending sol) _ _)
          as [h w'] eqn:Eh.
        assert (Hw : calls w'
                     = (calls w
                          ++ [COpenQuery "call"
                                [cons_functor (to_chars p) (ts ++ [Var 0])];
                              CNextSolution])%list).
        { revert Eh. unfold handle_prolog_exception, push_error.
          branches; intros [= _ <-];
            cbn [calls log set_last_error set_engine print];
            now rewrite <- app_assoc. }
        cbn [fst snd calls log]. now rewrite Hw, <- app_assoc.
      * cbn [fst snd calls log set_engine]. now rewrite <- !app_assoc.
    + intros sol e result Hs Hx H0 Hb. apply Z.eqb_neq in Hx, H0.
      rewrite Hs, Hx, H0, Hb. cbn [fst negb nth].
      replace (length args) with (length ts)
        by (symmetry; eapply Forall2_length; eauto).
      rewrite Nat.add_1_r. now rewrite get_arg_cons_functor.
  - intros ->. inversion Hts. reflexivity.
Qed.

Lemma call_builds_the_goal_witness :
  calls (snd (call_predicate Mini.api "parent" [VString "tom"; VString "bob"]
                Mini.family))
  = (calls Mini.family
       ++ [COpenQuery "call" [Compound "parent" [Atom "tom"; Atom "bob"]];
           CNextSolution; CCloseQuery])%list.
Proof.
  apply (call_builds_the_goal Mini.api "parent"
           [VString "tom"; VString "bob"] [Atom "tom"; Atom "bob"]
           Mini.family eq_refl eq_refl).
  - repeat constructor.
  - reflexivity.
Defined.

(** A conversion that failed and was not noticed: the engine cannot build
    the float, its [PL_put_term] accepts the invalid term, and the goal is
    stepped with what the slot then holds. *)
Example call_with_unconverted_argument :
  to_term Mini.careless (VFloat PrimFloat.zero) = None
  /\ call_predicate Mini.careless "parent"
       [VString "tom"; VFloat PrimFloat.zero] Mini.careless_family
     = (true,
        mkWorld Mini.careless true EmptyString "print" "print"
          [Mini.parent (Atom "tom") (Atom "bob")]
          [COpenQuery "call" [Mini.parent (Atom "tom") (Var 0)];
           CNextSolution; CCloseQuery]
          []).
Proof. split; reflexivity. Qed.

(** ** Consulting a file *)

(** The path [consult_file] hands to [consult/1]: a path that does not
    begin with [res://] or [user://] is handed over as it is, as the atom
    of its characters; a path that does is first made global when the
    project settings exist.  The text is not parsed; the result is true
    exactly when the step returns neither failure nor an exception. *)
Theorem consult_file_path (api : Foreign) f (w : World api) :
  m_initialized w = true ->
  is_empty f = false ->
  (begins_with f "res://" = false -> begins_with f "user://" = false ->
   can_build api (Atom (to_chars f)) = true ->
   calls (snd (consult_file api f w))
   = (calls w ++ [COpenQuery "consult" [Atom (to_chars f)];
                  CNextSolution; CCloseQuery])%list
   /\ fst (consult_file api f w)
      = (negb (status (fst (PL_next_solution api (engine w) "consult"
                              [Atom (to_chars f)])) =? 0)
         && negb (status (fst (PL_next_solution api (engine w) "consult"
                                 [Atom (to_chars f)])) =? PL_S_EXCEPTION))%bool)
  /\ (forall globalize_path,
        (begins_with f "res://" || begins_with f "user://")%bool = true ->
        project_settings api = Some globalize_path ->
        can_build api (Atom (to_chars (globalize_path f))) = true ->
        calls (snd (consult_file api f w))
        = (calls w ++ [COpenQuery "consult" [Atom (to_chars (globalize_path f))];
                       CNextSolution; CCloseQuery])%list).
Proof.
  intros Hi Hne.
  assert (Hrun : forall path,
             can_build api (Atom (to_chars path)) = true ->
             (if (begins_with f "res://" || begins_with f "user://")%bool
              then match project_settings api with
                   | Some g => g f
                   | None => f
                   end
              else f) = path ->
             calls (snd (consult_file api f w))
             = (calls w ++ [COpenQuery "consult" [Atom (to_chars path)];
                            CNextSolution; CCloseQuery])%list
             /\ fst (consult_file api f w)
                = (negb (status (fst (PL_next_solution api (engine w) "consult"
                                        [Atom (to_chars path)])) =? 0)
                   && negb (status (fst (PL_next_solution api (engine w)
                                           "consult" [Atom (to_chars path)]))
                            =? PL_S_EXCEPTION))%bool).
  { intros path Hc Hpath.
    unfold consult_file, PL_put_atom_chars, put, open_next, PL_close_query.
    rewrite Hi, Hne, Hpath, Hc. cbn [negb engine log].
    destruct (PL_next_solution api (engine w) "consult" [Atom (to_chars path)])
      as [sol e].
    cbn [fst]. destruct (status sol =? PL_S_EXCEPTION) eqn:Ex.
    - destruct (handle_prolog_exception api (pending sol) _ _) as [h w'] eqn:Eh.
      assert (Hw : calls w' = (calls w ++ [COpenQuery "consult" [Atom (to_chars path)];
                                           CNextSolution])%list).
      { revert Eh. unfold handle_prolog_exception, push_error.
        branches; intros [= _ <-];
          cbn [calls log set_last_error set_engine print];
          now rewrite <- app_assoc. }
      cbn [fst snd calls log]. rewrite Hw, <- app_assoc.
      split; [reflexivity | now rewrite andb_false_r].
    - cbn [fst snd calls log set_engine]. rewrite <- !app_assoc.
      split; [reflexivity | now rewrite andb_true_r]. }
  split.
  - intros H1 H2 Hc. apply Hrun; [exact Hc|]. now rewrite H1, H2.
  - intros g Hv Hg Hc. apply Hrun; [exact Hc|]. now rewrite Hv, Hg.
Qed.

Lemma consult_file_path_witness :
  calls (snd (consult_file Mini.floatless "res://rules/family.pl"
                Mini.floatless_family))
  = (calls Mini.floatless_family
       ++ [COpenQuery "consult" [Atom "/game/rules/family.pl"];
           CNextSolution; CCloseQuery])%list.
Proof.
  apply (proj2 (consult_file_path Mini.floatless "res://rules/family.pl"
                  Mini.floatless_family eq_refl eq_refl)
               Mini.in_project eq_refl eq_refl eq_refl).
Defined.

(** ** More on the life cycle *)

Lemma engine_set_swi_home_dir (api : Foreign) home (w : World api) :
  engine (set_swi_home_dir api home w) = engine w
  /\ m_last_error (set_swi_home_dir api home w) = m_last_error w
  /\ m_on_error (set_swi_home_dir api home w) = m_on_error w
  /\ m_on_warning (set_swi_home_dir api home w) = m_on_warning w
  /\ calls (set_swi_home_dir api home w)
     = (calls w ++ (if is_empty home then [] else [CSetenv home]))%list.
Proof.
  unfold set_swi_home_dir. destruct (is_empty home); cbn;
    rewrite ?app_nil_r; repeat split.
Qed.

Lemma bootstrap_failure (api : Foreign) ps (w : World api) :
  fst (bootstrap api ps w) = false ->
  exists w',
    snd (bootstrap api ps w) = engine_cleanup api w'
    /\ m_last_error w' <> EmptyString.
Proof.
  revert w. induction ps as [|p rest IH]; intros w; [discriminate|].
  cbn [bootstrap]. unfold chars_to_term, open_next, PL_close_query.
  branches; cbn [fst snd]; intros H; try discriminate;
    try (eexists; split; [reflexivity | cbn; discriminate]).
  now apply IH.
Qed.

Lemma bootstrap_keeps_options (api : Foreign) ps (w : World api) :
  m_on_error (snd (bootstrap api ps w)) = m_on_error w
  /\ m_on_warning (snd (bootstrap api ps w)) = m_on_warning w.
Proof.
  revert w. induction ps as [|p rest IH]; intros w; [now split|].
  cbn [bootstrap].
  unfold chars_to_term, open_next, PL_close_query, engine_cleanup.
  branches; cbn [snd]; try (split; reflexivity).
  destruct (IH (log api CCloseQuery
                  (log api CNextSolution
                     (set_engine api e
                        (log api (COpenQuery "assertz" [t])
                           (log api (CCharsToTerm p) w)))))) as [H1 H2].
  rewrite H1, H2. split; reflexivity.
Qed.

(** A failed [initialize] is never silent: when it returns false the
    object is not initialized and the last error is not empty; and when the
    failure comes after the engine has started, from a bootstrap clause that
    does not parse or is not asserted, the last thing done is the shutdown of
    the engine. *)
Theorem initialize_failure_is_recorded (api : Foreign) options (w : World api) :
  fst (initialize api options w) = false ->
  is_initialized api (snd (initialize api options w)) = false
  /\ get_last_error api (snd (initialize api options w)) <> EmptyString
  /\ (fst (fst (PL_initialise api (build_argv api options) (engine w))) = true ->
      exists w', snd (initialize api options w) = engine_cleanup api w').
Proof.
  unfold initialize, is_initialized, get_last_error.
  destruct (m_initialized w) eqn:Hi; [discriminate|].
  set (w0 := set_on_error api _ _ w).
  destruct (engine_set_swi_home_dir api
              (to_String api (dict_get options "home" (VString EmptyString)))
              w0) as (He & _).
  set (w1 := set_swi_home_dir api _ w0) in *.
  assert (Hi1 : m_initialized w1 = false).
  { subst w1 w0. unfold set_swi_home_dir. now branches. }
  replace (engine w1) with (engine w) by (rewrite He; reflexivity).
  destruct (PL_initialise api (build_argv api options) (engine w))
    as [[ok ex] e].
  set (w2 := log api _ (set_engine api e w1)).
  destruct ok; cbn [negb fst].
  - pose proof (bootstrap_failure api predicates w2) as Hf.
    pose proof (bootstrap_keeps_flag predicates w2) as Hk.
    destruct (bootstrap api predicates w2) as [ok w3].
    destruct ok; cbn [fst snd] in *; [discriminate|].
    intros _. destruct (Hf eq_refl) as (w' & -> & Hne).
    repeat split.
    + rewrite Hk. exact Hi1.
    + exact Hne.
    + intros _. now exists w'.
  - unfold handle_prolog_exception, push_error.
    branches; cbn [fst snd]; intros _; repeat split;
      try discriminate; try exact Hi1.
Qed.

Lemma initialize_failure_is_recorded_witness :
  get_last_error Mini.floatless
    (snd (initialize Mini.floatless []
            (Prologot Mini.floatless [])))
  <> EmptyString.
Proof.
  apply (initialize_failure_is_recorded Mini.floatless []
           (Prologot Mini.floatless []) eq_refl).
Defined.

(** The options "on error" and "on warning" are stored before the engine
    is started: after [initialize] on an object that was not initialized
    they are the texts given, "print" when absent, whether [initialize]
    succeeds or fails. *)
Theorem initialize_stores_options (api : Foreign) options (w : World api) :
  m_initialized w = false ->
  m_on_error (snd (initialize api options w))
  = to_String api (dict_get options "on error" (VString "print"))
  /\ m_on_warning (snd (initialize api options w))
     = to_String api (dict_get options "on warning" (VString "print")).
Proof.
  intros Hi. unfold initialize. rewrite Hi.
  set (w0 := set_on_error api _ _ w).
  destruct (engine_set_swi_home_dir api
              (to_String api (dict_get options "home" (VString EmptyString)))
              w0) as (_ & _ & H1 & H2 & _).
  set (w1 := set_swi_home_dir api _ w0) in *.
  destruct (PL_initialise api (build_argv api options) (engine w1))
    as [[ok ex] e].
  set (w2 := log api _ (set_engine api e w1)).
  assert (H3 : m_on_error w2 = m_on_error w0 /\ m_on_warning w2 = m_on_warning w0).
  { subst w2. cbn. now rewrite H1, H2. }
  destruct H3 as [H3 H4].
  destruct ok; cbn [negb].
  - destruct (bootstrap_keeps_options api predicates w2) as [H5 H6].
    destruct (bootstrap api predicates w2) as [ok w3]. cbn [snd] in H5, H6.
    destruct ok; cbn [snd m_on_error m_on_warning set_initialized];
      rewrite H5, H6, H3, H4; split; reflexivity.
  - unfold handle_prolog_exception, push_error.
    branches; cbn [snd m_on_error m_on_warning set_last_error print];
      rewrite ?H3, ?H4; split; reflexivity.
Qed.

Lemma initialize_stores_options_witness :
  m_on_error
    (snd (initialize Mini.floatless [("on error", VString "status")]
            (Prologot Mini.floatless [])))
  = "status".
Proof.
  apply (initialize_stores_options Mini.floatless
           [("on error", VString "status")]
           (Prologot Mini.floatless []) eq_refl).
Defined.

Lemma bootstrap_success (api : Foreign) ps (w : World api) :
  fst (bootstrap api ps w) = true ->
  exists tr,
    calls (snd (bootstrap api ps w)) = (calls w ++ tr)%list
    /\ filter is_parse_call tr = map CCharsToTerm ps
    /\ opens tr = length ps
    /\ closes tr = length ps
    /\ Forall (fun c => match c with
                        | COpenQuery predicate _ => predicate = "assertz"
                        | _ => True
                        end) tr.
Proof.
  revert w. induction ps as [|p rest IH]; intros w.
  - intros _. exists []. cbn. rewrite app_nil_r. repeat split. constructor.
  - cbn [bootstrap]. unfold chars_to_term, open_next, PL_close_query.
    branches; cbn [fst]; try discriminate.
    intros H. destruct (IH _ H) as (tr & Hc & Hp & Ho & Hcl & Hall).
    exists ([CCharsToTerm p; COpenQuery "assertz" [t]; CNextSolution;
             CCloseQuery] ++ tr)%list.
    split; [|split; [|split; [|split]]].
    + rewrite Hc. cbn [calls log set_engine]. now rewrite <- !app_assoc.
    + cbn. now rewrite Hp.
    + unfold opens in *. cbn. now rewrite Ho.
    + unfold closes in *. cbn. now rewrite Hcl.
    + repeat constructor. exact Hall.
Qed.

Lemma build_argv_entries (api : Foreign) options :
  Forall literal_or_dangling (build_argv api options).
Proof.
  unfold build_argv, flag_option, file_option, pair_options, stored.
  repeat (apply Forall_app; split);
    repeat match goal with
      | |- Forall _ (if ?c then _ else _) => destruct c
      | |- Forall _ (match ?v with _ => _ end) => destruct v
      end;
    try match goal with
      | |- Forall _ (flat_map _ _) =>
          apply Forall_flat_map; apply Forall_forall; intros
      | |- Forall _ (map _ _) =>
          apply Forall_map; apply Forall_forall; intros
      end;
    repeat (apply Forall_cons || apply Forall_nil); cbn; auto 20.
Qed.

(** What a successful [initialize] asks of the engine, on an object that
    was not initialized: it sets the home directory when one is given,
    starts the engine with the argument vector built from the options, then
    parses the five bootstrap clauses in their order and asserts each in a
    query of its own on [assertz/1]; the object is initialized afterwards.
    Of the argument vector only the literals of the program are still
    stored when the engine reads it: every entry made from the text of an
    option is a dangling pointer; without options the vector is
    [godot --quiet]. *)
Theorem initialize_success_calls (api : Foreign) options (w : World api) :
  m_initialized w = false ->
  fst (initialize api options w) = true ->
  (exists tr,
      calls (snd (initialize api options w))
      = (calls w
           ++ (if is_empty (to_String api
                              (dict_get options "home" (VString EmptyString)))
               then []
               else [CSetenv (to_String api
                                (dict_get options "home" (VString EmptyString)))])
           ++ CInitialise (build_argv api options) :: tr)%list
      /\ filter is_parse_call tr = map CCharsToTerm (predicates)
      /\ opens tr = 5%nat
      /\ closes tr = 5%nat
      /\ Forall (fun c => match c with
                          | COpenQuery predicate _ => predicate = "assertz"
                          | _ => True
                          end) tr
      /\ is_initialized api (snd (initialize api options w)) = true)
  /\ Forall literal_or_dangling (build_argv api options)
  /\ build_argv api [] = [Literal "godot"; Literal "--quiet"].
Proof.
  intros Hi Hok.
  split; [|split; [apply build_argv_entries | reflexivity]].
  revert Hok. unfold initialize, is_initialized. rewrite Hi.
  set (w0 := set_on_error api _ _ w).
  destruct (engine_set_swi_home_dir api
              (to_String api (dict_get options "home" (VString EmptyString)))
              w0) as (_ & _ & _ & _ & Hc).
  set (w1 := set_swi_home_dir api _ w0) in *.
  destruct (PL_initialise api (build_argv api options) (engine w1))
    as [[ok ex] e].
  set (w2 := log api _ (set_engine api e w1)).
  destruct ok; cbn [negb].
  - pose proof (bootstrap_success api predicates w2) as Hs.
    destruct (bootstrap api predicates w2) as [ok w3].
    destruct ok; cbn [fst snd] in *; [|discriminate].
    intros _. destruct (Hs eq_refl) as (tr & Hc3 & Hp & Ho & Hcl & Hall).
    exists tr. repeat split; auto.
    cbn [calls set_initialized]. rewrite Hc3. subst w2.
    cbn [calls log set_engine]. rewrite Hc. subst w0. cbn [calls set_on_error].
    now rewrite <- !app_assoc.
  - unfold handle_prolog_exception. branches; discriminate.
Qed.

Lemma initialize_success_calls_witness :
  exists tr,
    calls Mini.ready
    = (CInitialise [Literal "godot"; Literal "--quiet"] :: tr)%list
    /\ opens tr = 5%nat.
Proof.
  destruct (initialize_success_calls Mini.api [] Mini.fresh eq_refl eq_refl)
    as ((tr & Hc & _ & Ho & _) & _).
  exists tr. split; [exact Hc | exact Ho].
Defined.

(** ** The option "on warning" *)

(** No operation reports a warning: the text stored as "on warning" has no
    effect on what [query], [query_one], [query_all], [add_fact],
    [retract_fact], [call_predicate], [call_function], [consult_file] and
    [consult_string] return, record, print or ask of the engine. *)
Theorem on_warning_is_never_consulted (api : Foreign) (w : World api) x :
  (forall p args,
      query api p args (set_on_error api (m_on_error w) x w)
      = (fst (query api p args w),
         set_on_error api (m_on_error w) x (snd (query api p args w))))
  /\ (forall p args,
        query_one api p args (set_on_error api (m_on_error w) x w)
        = (fst (query_one api p args w),
           set_on_error api (m_on_error w) x (snd (query_one api p args w))))
  /\ (forall p args,
        query_all api p args (set_on_error api (m_on_error w) x w)
        = (fst (query_all api p args w),
           set_on_error api (m_on_error w) x (snd (query_all api p args w))))
  /\ (forall f,
        add_fact api f (set_on_error api (m_on_error w) x w)
        = (fst (add_fact api f w),
           set_on_error api (m_on_error w) x (snd (add_fact api f w))))
  /\ (forall f,
        retract_fact api f (set_on_error api (m_on_error w) x w)
        = (fst (retract_fact api f w),
           set_on_error api (m_on_error w) x (snd (retract_fact api f w))))
  /\ (forall p args,
        call_predicate api p args (set_on_error api (m_on_error w) x w)
        = (fst (call_predicate api p args w),
           set_on_error api (m_on_error w) x
             (snd (call_predicate api p args w))))
  /\ (forall p args,
        call_function api p args (set_on_error api (m_on_error w) x w)
        = (fst (call_function api p args w),
           set_on_error api (m_on_error w) x
             (snd (call_function api p args w))))
  /\ (forall f,
        consult_file api f (set_on_error api (m_on_error w) x w)
        = (fst (consult_file api f w),
           set_on_error api (m_on_error w) x (snd (consult_file api f w))))
  /\ (forall c,
        consult_string api c (set_on_error api (m_on_error w) x w)
        = (fst (consult_string api c w),
           set_on_error api (m_on_error w) x (snd (consult_string api c w)))).
Proof.
  destruct w as [ini err one owa eng cs con].
  repeat split; intros; unfold_ops;
    repeat (cbn [m_initialized m_last_error m_on_error m_on_warning engine
                 calls console set_on_error log set_engine set_last_error
                 print String.eqb Ascii.eqb Bool.eqb fst snd];
            match goal with
            | |- context [match ?x with _ => _ end] =>
                lazymatch x with
                | context [match _ with _ => _ end] => fail
                | _ => destruct x eqn:?
                end
            end);
    reflexivity.
Qed.

(** ** The trailing period, in full *)

Lemma last_char_split s c :
  last_char s = Some c -> exists s', s = (s' ++ String c EmptyString)%string.
Proof.
  induction s as [|a s IH]; [discriminate|].
  destruct s as [|b s'].
  - cbn. intros [= <-]. now exists EmptyString.
  - intros H.
    assert (H' : last_char (String b s') = Some c).
    { unfold last_char in *. cbn [String.length] in *.
      rewrite Nat.sub_succ, Nat.sub_0_r in *. exact H. }
    destruct (IH H') as (r & Hr). exists (String a r). cbn. now rewrite <- Hr.
Qed.

(** [remove_trailing_period] removes the last character when it is a
    period and nothing else: a text that ends with a period loses that one
    character, any other text, the empty one included, is returned as it is;
    periods inside the text stay. *)
Theorem remove_trailing_period_cases s :
  (exists s',
      s = (s' ++ ".")%string /\ remove_trailing_period s = s')
  \/ (last_char s <> Some "."%char /\ remove_trailing_period s = s).
Proof.
  destruct (last_char s) as [c|] eqn:E.
  - destruct (Ascii.eqb_spec c "."%char) as [->|Hne].
    + left. destruct (last_char_split s _ E) as (s' & ->).
      exists s'. split; [reflexivity | apply remove_trailing_period_append].
    + right. assert (Hl : last_char s <> Some "."%char) by congruence.
      rewrite <- E. split; [exact Hl | now apply remove_trailing_period_id].
  - right. assert (Hl : last_char s <> Some "."%char) by congruence.
    rewrite <- E. split; [exact Hl | now apply remove_trailing_period_id].
Qed.
